(** * apiserver: the SSE fan-out relay of [apiserver.py]

    A shallow embedding of the request handlers and of the two long-lived
    coroutines of [apiserver.py] (the Redis listener and the per-client event
    generator), followed by the properties of the relay.

    asyncio runs one coroutine at a time and switches only at an [await] that
    really suspends.  [asyncio.Queue()] is unbounded, so [await q.put(x)]
    never suspends: [broadcast], the body of the listener loop and each
    handler run atomically.  The program is therefore modelled as a
    transition function [step] over a global state [World], one action per
    atomic segment. *)

From Stdlib Require Import Ascii String.
From stdpp Require Import gmap strings list fin_maps sorting.

Set Warnings "-register-all".

Open Scope string_scope.
Open Scope list_scope.

(** ** Python values *)

(** The double-quote character, U+0022. *)
Definition dq : string := String (ascii_of_nat 34) EmptyString.

(** JSON-serialisable Python values: [None], [bool], [str], [list] and
    [dict] with [str] keys (insertion-ordered).  Numbers are not built by any
    handler and are left out. *)
Inductive json : Type :=
| JNull
| JBool (b : bool)
| JStr (s : string)
| JArr (xs : list json)
| JObj (kvs : list (string * json)).

Definition hex_digit (n : nat) : string :=
  String (nth n ["0"; "1"; "2"; "3"; "4"; "5"; "6"; "7";
                 "8"; "9"; "a"; "b"; "c"; "d"; "e"; "f"]%char "0"%char)
         EmptyString.

(** [json.encoder.ESCAPE_DCT] and the [\uXXXX] fallback of
    [py_encode_basestring_ascii]; a character is a code point below 256. *)
Definition escape_char (c : ascii) : string :=
  let n := nat_of_ascii c in
  if decide (n = 92) then "\\"
  else if decide (n = 34) then "\" +:+ dq
  else if decide (n = 8) then "\b"
  else if decide (n = 12) then "\f"
  else if decide (n = 10) then "\n"
  else if decide (n = 13) then "\r"
  else if decide (n = 9) then "\t"
  else if decide (32 ≤ n ≤ 126)%nat then String c EmptyString
  else "\u00" +:+ hex_digit (n / 16) +:+ hex_digit (n mod 16).

Fixpoint escape_string (s : string) : string :=
  match s with
  | EmptyString => EmptyString
  | String c s' => escape_char c +:+ escape_string s'
  end.

Definition encode_basestring_ascii (s : string) : string :=
  dq +:+ escape_string s +:+ dq.

Fixpoint join (sep : string) (parts : list string) : string :=
  match parts with
  | [] => EmptyString
  | [p] => p
  | p :: rest => p +:+ sep +:+ join sep rest
  end.

(** [json.dumps] with its defaults: [ensure_ascii=True], item separator
    [", "], key separator [": "]. *)
Fixpoint json_dumps (v : json) : string :=
  match v with
  | JNull => "null"
  | JBool true => "true"
  | JBool false => "false"
  | JStr s => encode_basestring_ascii s
  | JArr xs => "[" +:+ join ", " (map json_dumps xs) +:+ "]"
  | JObj kvs =>
      "{" +:+ join ", " (map (fun kv => encode_basestring_ascii (fst kv)
                                         +:+ ": " +:+ json_dumps (snd kv)) kvs)
          +:+ "}"
  end.

(** [JSONResponse(status_code=..., content=...)]. *)
Record JSONResponse : Type := mkJSONResponse {
  status_code : nat;
  content : json
}.

(** ** The global state *)

(** A reference to an [asyncio.Queue] object.  [asyncio.Queue] defines no
    [__eq__], so [list.remove] compares queues by identity. *)
Definition qref : Type := nat.

Inductive exn : Type :=
| CancelledError
| GeneratorExit
| ValueError
| OtherError.

(** Where the async generator [event_generator()] of one connection stands:
    created but not yet resumed, so that its body has not begun; about to
    call [request.is_disconnected()]; suspended in [queue.get()]; suspended
    at its [yield]; finished through its [finally] clause (returned, or left
    by an exception); or finished without its body ever having run, because
    it was closed, cancelled or given up before its first resumption. *)
Inductive gen_phase : Type :=
| Created
| AtProbe
| AtGet
| AtYield
| Closed (raised : option exn)
| Dropped.

(** The dict [{"event": "update", "data": msg}] handed to the transport. *)
Record sse_event : Type := mkEvent {
  event : string;
  data : string
}.

(** One connection: the items of its [asyncio.Queue], its generator, and what
    the generator has yielded so far. *)
Record client : Type := mkClient {
  items : list string;
  phase : gen_phase;
  yielded : list sse_event
}.

(** An entry of [pubsub.listen()]: [message["type"]] and [message["data"]].
    The code reads ["data"] of entries of type ["message"] only, where it is
    a [str] ([decode_responses=True]). *)
Record pubsub_entry : Type := mkEntry {
  entry_type : string;
  entry_data : string
}.

(** The task running [redis_listener]. *)
Inductive listener_state : Type :=
| NotStarted
| Listening
| Crashed
| Cancelled.

(** Observable effects, in program order. *)
Inductive effect : Type :=
| Dumps (payload : json)
| Put (q : qref) (msg : string)
| Subscribe (channel : string).

Record World : Type := mkWorld {
  UPDATE_CHANNEL : string;
  sse_clients : list qref;
  heap : gmap qref client;
  next_ref : qref;
  listener : listener_state;
  effects : list effect
}.

Definition init_world (update_channel : string) : World :=
  {| UPDATE_CHANNEL := update_channel; sse_clients := []; heap := ∅;
     next_ref := 0; listener := NotStarted; effects := [] |}.

Definition set_clients (l : list qref) (w : World) : World :=
  {| UPDATE_CHANNEL := UPDATE_CHANNEL w; sse_clients := l; heap := heap w;
     next_ref := next_ref w; listener := listener w; effects := effects w |}.

Definition set_heap (h : gmap qref client) (w : World) : World :=
  {| UPDATE_CHANNEL := UPDATE_CHANNEL w; sse_clients := sse_clients w;
     heap := h; next_ref := next_ref w; listener := listener w;
     effects := effects w |}.

Definition set_listener (s : listener_state) (w : World) : World :=
  {| UPDATE_CHANNEL := UPDATE_CHANNEL w; sse_clients := sse_clients w;
     heap := heap w; next_ref := next_ref w; listener := s;
     effects := effects w |}.

Definition emit (e : effect) (w : World) : World :=
  {| UPDATE_CHANNEL := UPDATE_CHANNEL w; sse_clients := sse_clients w;
     heap := heap w; next_ref := next_ref w; listener := listener w;
     effects := effects w ++ [e] |}.

(** ** Queues *)

Definition push (msg : string) (c : client) : client :=
  {| items := items c ++ [msg]; phase := phase c; yielded := yielded c |}.

(** [await q.put(msg)] on an unbounded queue. *)
Definition queue_put (q : qref) (msg : string) (w : World) : World :=
  emit (Put q msg) (set_heap (alter (push msg) q (heap w)) w).

(** [for q in list(sse_clients): await q.put(msg)]: the loop runs over a copy
    of the registry taken before the first [put]. *)
Definition put_each (msg : string) (snapshot : list qref) (w : World)
  : World :=
  foldl (fun w' q => queue_put q msg w') w snapshot.

Definition put_all (msg : string) (w : World) : World :=
  put_each msg (sse_clients w) w.

(** ** [broadcast] *)

Definition broadcast (payload : json) (w : World) : World :=
  let msg := json_dumps payload in
  put_all msg (emit (Dumps payload) w).

(** ** [PUT /webcontrol/{command}] *)

Definition valid_commands : gset string :=
  {["pp"]} ∪ {["fwd"]} ∪ {["rew"]} ∪ {["out"]}.

Definition send_webcontrol_command (command : string) (w : World)
  : World * JSONResponse :=
  if decide (command ∉ valid_commands) then
    (w, mkJSONResponse 400 (JObj [("error", JStr "Invalid command")]))
  else
    let payload := JObj [("type", JStr "webcontrol");
                         ("command", JStr command)] in
    let w' := broadcast payload w in
    (w', mkJSONResponse 202 (JObj [("status", JStr "Command queued")])).


(** ** [GET /events] *)

(** [queue = asyncio.Queue(); sse_clients.append(queue)], then the response
    wraps a new [event_generator()].  Calling an async generator function
    runs none of its body: the queue is registered while the generator is
    merely created, outside its [try]. *)
Definition stream_events (w : World) : World * qref :=
  let queue := next_ref w in
  let c := {| items := []; phase := Created; yielded := [] |} in
  ({| UPDATE_CHANNEL := UPDATE_CHANNEL w;
      sse_clients := sse_clients w ++ [queue];
      heap := <[queue := c]> (heap w);
      next_ref := S queue;
      listener := listener w;
      effects := effects w |}, queue).

(** [list.remove(x)]: drops the first element equal to [x]; [None] stands for
    the [ValueError] raised when there is none. *)
Fixpoint list_remove (x : qref) (l : list qref) : option (list qref) :=
  match l with
  | [] => None
  | y :: l' =>
      if decide (y = x) then Some l'
      else match list_remove x l' with
           | Some r => Some (y :: r)
           | None => None
           end
  end.

(** [sse_clients.remove(queue)]: the new state, or the exception raised. *)
Definition remove_client (queue : qref) (w : World) : exn + World :=
  match list_remove queue (sse_clients w) with
  | Some l => inr (set_clients l w)
  | None => inl ValueError
  end.

Definition with_phase (p : gen_phase) (c : client) : client :=
  {| items := items c; phase := p; yielded := yielded c |}.

Definition set_phase (queue : qref) (p : gen_phase) (w : World) : World :=
  set_heap (alter (with_phase p) queue (heap w)) w.

(** The [finally] clause of [event_generator].  [pending] is the exception that
    is unwinding the generator, if any; a [ValueError] raised by [remove]
    replaces it. *)
Definition finally_clause (queue : qref) (pending : option exn) (w : World)
  : World :=
  match remove_client queue w with
  | inr w' => set_phase queue (Closed pending) w'
  | inl e => set_phase queue (Closed (Some e)) w
  end.

(** What can happen to a generator from outside: [request.is_disconnected()]
    answers, [queue.get()] returns, the consumer asks for the next event
    (the first such request starts the body), or an exception is raised into
    it at its current suspension point (task cancellation, [aclose()], an
    error of the probe).  Raised into a generator that was never resumed,
    the exception finishes it before its body, and so its [try], is
    entered. *)
Inductive gen_input : Type :=
| Disconnected (b : bool)
| Item
| Next
| Throw (e : exn).

(** One atomic segment of [event_generator] for the connection [queue]. *)
Definition event_generator (queue : qref) (i : gen_input) (w : World)
  : World :=
  match heap w !! queue with
  | None => w
  | Some c =>
      match phase c, i with
      | Closed _, _ => w
      | Dropped, _ => w
      | Created, Next => set_phase queue AtProbe w
      | Created, Throw _ => set_phase queue Dropped w
      | Created, _ => w
      | _, Throw e => finally_clause queue (Some e) w
      | AtProbe, Disconnected true => finally_clause queue None w
      | AtProbe, Disconnected false => set_phase queue AtGet w
      | AtGet, Item =>
          match items c with
          | [] => w
          | msg :: rest =>
              let c' := {| items := rest; phase := AtYield;
                           yielded := yielded c ++ [mkEvent "update" msg] |} in
              set_heap (<[queue := c']> (heap w)) w
          end
      | AtYield, Next => set_phase queue AtProbe w
      | _, _ => w
      end
  end.

(** ** [redis_listener] *)

(** [pubsub = redis.pubsub(); await pubsub.subscribe(UPDATE_CHANNEL)]. *)
Definition subscribe (w : World) : World :=
  set_listener Listening (emit (Subscribe (UPDATE_CHANNEL w)) w).

(** The body of [async for message in pubsub.listen()]. *)
Definition on_message (message : pubsub_entry) (w : World) : World :=
  if decide (entry_type message = "message") then
    let data := entry_data message in
    put_all data w
  else w.

(** ** The transition system *)

Inductive action : Type :=
| Startup
| Shutdown
| Upstream (message : pubsub_entry)
| UpstreamError
| GetEvents
| PutWebcontrol (command : string)
| Session (queue : qref) (i : gen_input).

(** [Startup] is [lifespan] creating the listener task; [Upstream m] is
    [pubsub.listen()] producing [m]; [UpstreamError] is [pubsub.listen()]
    raising: [redis_listener] has no handler, the exception ends the task;
    [Shutdown] is [task.cancel()].  An entry published while no listener is in
    its loop reaches nobody. *)
Definition step (a : action) (w : World) : World :=
  match a with
  | Startup =>
      match listener w with NotStarted => subscribe w | _ => w end
  | Shutdown =>
      match listener w with Listening => set_listener Cancelled w | _ => w end
  | Upstream m =>
      match listener w with Listening => on_message m w | _ => w end
  | UpstreamError =>
      match listener w with Listening => set_listener Crashed w | _ => w end
  | GetEvents => fst (stream_events w)
  | PutWebcontrol command => fst (send_webcontrol_command command w)
  | Session queue i => event_generator queue i w
  end.

Definition run (tr : list action) (w : World) : World :=
  foldl (fun w' a => step a w') w tr.

(** ** [GET /key/...] *)

(** [val or default] on [Optional[str]]: [None] and the empty string are
    falsy. *)
Definition py_or (val : option string) (default : string) : string :=
  match val with
  | None => default
  | Some EmptyString => default
  | Some s => s
  end.

Section KeyValue.

(** [json.loads] as the handlers use its result, which they hand straight
    to [JSONResponse(content=...)].  [None] stands for the request failing
    there: [json.loads] raises [JSONDecodeError], or it yields a value that
    [JSONResponse] refuses to render ([NaN] or an infinity, since it
    serialises with [allow_nan=False]). *)
Variable json_loads : string -> option json.

(** The Redis keyspace read by [redis.get]. *)
Variable store : gmap string string.

Definition get_current_environment : option JSONResponse :=
  let weatherval := store !! "Weather" in
  let aqival := store !! "AQI" in
  let moonval := store !! "Moon" in
  aqi ← json_loads (py_or aqival "{}");
  moon ← json_loads (py_or moonval "{}");
  weather ← json_loads (py_or weatherval "{}");
  let val := JObj [("AQI", aqi); ("Moon", moon); ("Weather", weather)] in
  Some (mkJSONResponse 200 val).

Definition get_current_state (KV_KEY : string) : option JSONResponse :=
  let val := store !! KV_KEY in
  c ← json_loads (py_or val "{}");
  Some (mkJSONResponse 200 c).

End KeyValue.

(** A decoder that knows the JSON literals without members; it instantiates
    [json_loads] where a concrete decoder is needed. *)
Definition json_loads_literal (s : string) : option json :=
  if decide (s = "{}") then Some (JObj [])
  else if decide (s = "[]") then Some (JArr [])
  else if decide (s = "null") then Some JNull
  else if decide (s = "true") then Some (JBool true)
  else if decide (s = "false") then Some (JBool false)
  else None.

(** ** Notions used by the statements *)

(** The [finally] clause of the connection's generator has not run: the
    connection has not given up its place in the registry. *)
Definition unreleased (c : client) : Prop :=
  match phase c with Closed _ => False | _ => True end.

Global Instance unreleased_dec c : Decision (unreleased c).
Proof. unfold unreleased. destruct (phase c); apply _. Defined.

(** The generator of the connection has begun and has not finished. *)
Definition running (c : client) : Prop :=
  match phase c with AtProbe | AtGet | AtYield => True | _ => False end.

(** Everything queue [q] was ever given, oldest first: what its generator
    has already yielded, then what still waits in the queue. *)
Definition received (q : qref) (w : World) : list string :=
  match heap w !! q with
  | Some c => map data (yielded c) ++ items c
  | None => []
  end.

Definition pending (q : qref) (w : World) : list string :=
  match heap w !! q with
  | Some c => items c
  | None => []
  end.

(** The payload a producer action hands to the registered queues in state
    [w], if any. *)
Definition produced (a : action) (w : World) : list string :=
  match a with
  | Upstream m =>
      match listener w with
      | Listening =>
          if decide (entry_type m = "message") then [entry_data m] else []
      | _ => []
      end
  | PutWebcontrol command =>
      if decide (command ∈ valid_commands) then
        [json_dumps (JObj [("type", JStr "webcontrol");
                           ("command", JStr command)])]
      else []
  | _ => []
  end.

(** The payloads produced along a trace, in production order. *)
Fixpoint production (tr : list action) (w : World) : list string :=
  match tr with
  | [] => []
  | a :: tr' => produced a w ++ production tr' (step a w)
  end.

(** Number of [subscribe] calls, of serialisations, and of [put]s on [q]. *)
Definition is_subscribe (e : effect) : bool :=
  match e with Subscribe _ => true | _ => false end.

Definition is_dumps (e : effect) : bool :=
  match e with Dumps _ => true | _ => false end.

Definition is_put_on (q : qref) (e : effect) : bool :=
  match e with Put q' _ => bool_decide (q' = q) | _ => false end.

Definition count (f : effect -> bool) (es : list effect) : nat :=
  length (filter (fun e => f e = true) es).

Definition subscriptions (w : World) : nat :=
  count is_subscribe (effects w).

(** The channels of the [subscribe] calls made so far, oldest first. *)
Definition subscribed_channels (w : World) : list string :=
  omap (fun e => match e with
                 | Subscribe channel => Some channel
                 | _ => None
                 end) (effects w).

(** The invariant of the reachable states: the registry holds no queue
    twice, it holds exactly the queues whose generator has not run its
    [finally] clause, and queue references are allocated in increasing
    order. *)
Record wf (w : World) : Prop := mkWf {
  wf_nodup : NoDup (sse_clients w);
  wf_registered :
    forall q, q ∈ sse_clients w
              <-> exists c, heap w !! q = Some c /\ unreleased c;
  wf_fresh : forall q, is_Some (heap w !! q) -> q < next_ref w
}.

(** The generator of [q] has left through its [finally] clause. *)
Definition closed (q : qref) (w : World) : Prop :=
  exists c, heap w !! q = Some c /\ ~ unreleased c.

(** The value [GET /key/Environment] reports for [key]: the empty object when
    the key is absent, what [json_loads] makes of the stored text otherwise. *)
Definition field_value (json_loads : string -> option json)
    (store : gmap string string) (key : string) (v : json) : Prop :=
  match store !! key with
  | None => v = JObj []
  | Some s => json_loads (py_or (Some s) "{}") = Some v
  end.

(** The payload the spec words give a command, with type ["control"]. *)
Definition control_payload (command : string) : json :=
  JObj [("type", JStr "control"); ("command", JStr command)].

(** The payload [send_webcontrol_command] builds. *)
Definition webcontrol_payload (command : string) : json :=
  JObj [("type", JStr "webcontrol"); ("command", JStr command)].

(** The text of [webcontrol_payload command] for a command that needs no
    escaping. *)
Definition webcontrol_text (command : string) : string :=
  "{" +:+ dq +:+ "type" +:+ dq +:+ ": " +:+ dq +:+ "webcontrol" +:+ dq
      +:+ ", " +:+ dq +:+ "command" +:+ dq +:+ ": " +:+ dq +:+ command +:+ dq
      +:+ "}".

(** The empty queue and fresh generator of a new connection. *)
Definition new_client : client :=
  {| items := []; phase := Created; yielded := [] |}.

(** ** Further notions *)

(** The end of [lifespan]: [task.cancel()], then [await task], where only
    [CancelledError] is caught.  A listener that is in its loop ends
    cancelled; one that an upstream error has already ended hands that
    error to [await task], which lets it through. *)
Definition lifespan_exit (w : World) : World * option exn :=
  match listener w with
  | Listening => (set_listener Cancelled w, None)
  | Crashed => (w, Some OtherError)
  | _ => (w, None)
  end.

(** The messages put on [q], oldest first, as the effect log has them. *)
Definition puts_on (q : qref) (es : list effect) : list string :=
  omap (fun e => match e with
                 | Put q' msg => if decide (q' = q) then Some msg else None
                 | _ => None
                 end) es.

(** The generator of [q] waits in [queue.get()] on an empty queue. *)
Definition idle (q : qref) (w : World) : Prop :=
  exists c, heap w !! q = Some c /\ phase c = AtGet /\ items c = [].

(** Printable ASCII, U+0020 to U+007E. *)
Definition printable (c : ascii) : bool :=
  ((32 <=? nat_of_ascii c) && (nat_of_ascii c <=? 126))%nat.

(** Printable ASCII that [json.dumps] leaves as it is: neither the quote
    nor the backslash. *)
Definition plain (c : ascii) : bool :=
  printable c && negb (nat_of_ascii c =? 34)%nat
  && negb (nat_of_ascii c =? 92)%nat.

Fixpoint string_forallb (f : ascii -> bool) (s : string) : bool :=
  match s with
  | EmptyString => true
  | String c s' => f c && string_forallb f s'
  end.

(** * Properties *)

Arguments json_dumps : simpl never.

(** ** [list.remove] *)

Lemma list_remove_absent (x : qref) (l : list qref) :
  x ∉ l -> list_remove x l = None.
Proof.
  induction l as [|y l IH]; intros Hx; simpl; [done|].
  apply not_elem_of_cons in Hx as [Hne Hx].
  destruct (decide (y = x)) as [->|_]; [done|].
  by rewrite IH.
Qed.

Lemma list_remove_present (x : qref) (l : list qref) :
  x ∈ l ->
  exists l1 l2,
    l = l1 ++ x :: l2 /\ (x ∉ l1) /\ list_remove x l = Some (l1 ++ l2).
Proof.
  induction l as [|y l IH]; intros Hx; [by apply elem_of_nil in Hx|].
  simpl. destruct (decide (y = x)) as [->|Hne].
  - exists [], l. split_and!; [done| apply not_elem_of_nil |done].
  - apply elem_of_cons in Hx as [->|Hx]; [done|].
    destruct (IH Hx) as (l1 & l2 & -> & Hl1 & ->).
    exists (y :: l1), l2. split_and!; [done| |done].
    apply not_elem_of_cons. split; [congruence|done].
Qed.

Lemma list_remove_None_iff (x : qref) (l : list qref) :
  list_remove x l = None <-> x ∉ l.
Proof.
  split; [|apply list_remove_absent].
  intros Hn Hx. apply list_remove_present in Hx as (?&?&_&_&Hs). congruence.
Qed.

Lemma list_remove_nodup (x : qref) (l l' : list qref) :
  NoDup l -> list_remove x l = Some l' ->
  NoDup l' /\ forall y, y ∈ l' <-> y ∈ l /\ y ≠ x.
Proof.
  intros Hnd Hrm.
  destruct (decide (x ∈ l)) as [Hx|Hx];
    [|apply list_remove_absent in Hx; congruence].
  apply list_remove_present in Hx as (l1 & l2 & -> & Hl1 & Hs).
  rewrite Hs in Hrm. injection Hrm as <-.
  apply NoDup_app in Hnd as (Hn1 & Hdisj & Hn2).
  apply NoDup_cons in Hn2 as [Hx2 Hn2].
  split.
  - apply NoDup_app. split_and!; [done| |done].
    intros y Hy1 Hy2. apply (Hdisj y Hy1). by apply elem_of_cons; right.
  - intros y. rewrite !elem_of_app, elem_of_cons. split.
    + intros [Hy|Hy]; (split; [tauto|]); intros ->; tauto.
    + intros [[Hy|[->|Hy]] Hne]; tauto.
Qed.

(** ** Fan-out on a snapshot *)

Lemma put_each_cons msg q l w :
  put_each msg (q :: l) w = put_each msg l (queue_put q msg w).
Proof. done. Qed.

Lemma put_each_frame msg l w :
  UPDATE_CHANNEL (put_each msg l w) = UPDATE_CHANNEL w
  /\ sse_clients (put_each msg l w) = sse_clients w
  /\ next_ref (put_each msg l w) = next_ref w
  /\ listener (put_each msg l w) = listener w.
Proof.
  revert w. induction l as [|q l IH]; intros w; [done|].
  rewrite put_each_cons. destruct (IH (queue_put q msg w)) as (->&->&->&->).
  done.
Qed.

Lemma put_each_effects msg l w :
  effects (put_each msg l w) = effects w ++ map (fun q => Put q msg) l.
Proof.
  revert w. induction l as [|q l IH]; intros w.
  - simpl. by rewrite app_nil_r.
  - rewrite put_each_cons, IH. simpl. by rewrite <- app_assoc.
Qed.

Lemma put_each_lookup msg l w q :
  NoDup l ->
  heap (put_each msg l w) !! q
  = if decide (q ∈ l) then push msg <$> heap w !! q else heap w !! q.
Proof.
  revert w. induction l as [|x l IH]; intros w Hnd.
  - simpl. destruct (decide (q ∈ [])) as [H|_]; [by apply elem_of_nil in H|done].
  - apply NoDup_cons in Hnd as [Hx Hnd].
    rewrite put_each_cons, IH by done. simpl.
    destruct (decide (x = q)) as [->|Hne].
    + rewrite lookup_alter_eq.
      destruct (decide (q ∈ l)); [done|].
      destruct (decide (q ∈ q :: l)) as [_|Hn]; [done|].
      exfalso. apply Hn. by left.
    + rewrite lookup_alter_ne by done.
      destruct (decide (q ∈ l)) as [Hq|Hq].
      * destruct (decide (q ∈ x :: l)) as [_|Hn]; [done|].
        exfalso. apply Hn. by right.
      * destruct (decide (q ∈ x :: l)) as [Hin|_]; [|done].
        apply elem_of_cons in Hin as [->|Hin]; done.
Qed.

(** ** The invariant *)

Lemma unreleased_push msg c : unreleased (push msg c) <-> unreleased c.
Proof. done. Qed.

Lemma wf_init ch : wf (init_world ch).
Proof.
  split; simpl.
  - apply NoDup_nil_2.
  - intros q. split.
    + intros H. by apply elem_of_nil in H.
    + intros (c & H & _). by rewrite lookup_empty in H.
  - intros q [c H]. by rewrite lookup_empty in H.
Qed.

(** Replacing the heap by one with the same unreleased queues and no new
    reference keeps the invariant. *)
Lemma wf_set_heap w h' :
  wf w ->
  (forall y, (exists c, h' !! y = Some c /\ unreleased c)
             <-> (exists c, heap w !! y = Some c /\ unreleased c)) ->
  (forall y, is_Some (h' !! y) -> is_Some (heap w !! y)) ->
  wf (set_heap h' w).
Proof.
  intros [Hnd Hreg Hfr] Hlive Hdom. split; simpl.
  - done.
  - intros q. by rewrite Hreg, Hlive.
  - intros q Hq. by apply Hfr, Hdom.
Qed.

Lemma put_all_lookup msg w q :
  wf w ->
  heap (put_all msg w) !! q
  = if decide (q ∈ sse_clients w) then push msg <$> heap w !! q
    else heap w !! q.
Proof. intros Hwf. apply put_each_lookup, Hwf. Qed.

Lemma put_all_wf msg w : wf w -> wf (put_all msg w).
Proof.
  intros Hwf. pose proof Hwf as [Hnd Hreg Hfr].
  destruct (put_each_frame msg (sse_clients w) w) as (Hch & Hcl & Hnx & Hli).
  fold (put_all msg w) in Hch, Hcl, Hnx, Hli.
  split.
  - by rewrite Hcl.
  - intros q. rewrite Hcl, Hreg, put_all_lookup by done.
    destruct (decide (q ∈ sse_clients w)) as [_|_]; [|done].
    destruct (heap w !! q) as [c|]; simpl.
    + split; intros (c' & [= <-] & Hl); eauto.
    + split; intros (? & [=] & _).
  - intros q. rewrite Hnx, put_all_lookup by done.
    intros Hq. apply Hfr.
    case_decide; [|done]. by apply fmap_is_Some in Hq.
Qed.

Lemma broadcast_wf payload w : wf w -> wf (broadcast payload w).
Proof.
  intros Hwf. apply put_all_wf.
  destruct Hwf as [Hnd Hreg Hfr]. by split.
Qed.

Lemma stream_events_wf w : wf w -> wf (fst (stream_events w)).
Proof.
  intros [Hnd Hreg Hfr].
  assert (Hnew : heap w !! next_ref w = None).
  { destruct (heap w !! next_ref w) eqn:E; [|done].
    assert (next_ref w < next_ref w) by (apply Hfr; eauto). lia. }
  split; simpl.
  - apply NoDup_app. split_and!; [done| |apply NoDup_singleton].
    intros q Hq Hq'. apply list_elem_of_singleton in Hq' as ->.
    apply Hreg in Hq as (c & Hc & _). congruence.
  - intros q. rewrite elem_of_app, list_elem_of_singleton, Hreg.
    destruct (decide (q = next_ref w)) as [->|Hne].
    + rewrite lookup_insert_eq. split; [|by right].
      intros _. eexists. split; [done|]. done.
    + rewrite lookup_insert_ne by done. tauto.
  - intros q. destruct (decide (q = next_ref w)) as [->|Hne]; [lia|].
    rewrite lookup_insert_ne by done. intros Hq. apply Hfr in Hq. lia.
Qed.

Lemma remove_client_unreleased w q c :
  wf w -> heap w !! q = Some c -> unreleased c ->
  exists l', remove_client q w = inr (set_clients l' w)
             /\ NoDup l'
             /\ forall y, y ∈ l' <-> y ∈ sse_clients w /\ y ≠ q.
Proof.
  intros [Hnd Hreg _] Hc Hl.
  assert (Hq : q ∈ sse_clients w) by (apply Hreg; eauto).
  unfold remove_client.
  destruct (list_remove q (sse_clients w)) as [l'|] eqn:E.
  - exists l'. split; [done|]. by apply list_remove_nodup.
  - apply list_remove_None_iff in E. done.
Qed.

Lemma finally_clause_wf w q c pending :
  wf w -> heap w !! q = Some c -> unreleased c ->
  wf (finally_clause q pending w).
Proof.
  intros Hwf Hc Hl.
  destruct (remove_client_unreleased w q c Hwf Hc Hl)
    as (l' & Hrm & Hnd' & Hl').
  destruct Hwf as [Hnd Hreg Hfr].
  unfold finally_clause. rewrite Hrm. split; simpl.
  - done.
  - intros y. rewrite Hl', Hreg.
    destruct (decide (y = q)) as [->|Hne].
    + rewrite lookup_alter_eq, Hc. simpl. split.
      * intros [_ ?]. done.
      * intros (c' & [= <-] & Hlc). done.
    + rewrite lookup_alter_ne by done. tauto.
  - intros y Hy. apply Hfr.
    destruct (decide (y = q)) as [->|Hne]; [eauto|].
    by rewrite lookup_alter_ne in Hy.
Qed.

Lemma set_phase_wf w q c p :
  wf w -> heap w !! q = Some c -> unreleased c ->
  (forall e, p ≠ Closed e) ->
  wf (set_phase q p w).
Proof.
  intros Hwf Hc Hl Hp. apply wf_set_heap; [done| |].
  - intros y. destruct (decide (y = q)) as [->|Hne].
    + rewrite lookup_alter_eq, Hc. simpl. split.
      * intros _. eauto.
      * intros _. eexists. split; [done|].
        unfold unreleased. simpl. destruct p; naive_solver.
    + by rewrite lookup_alter_ne.
  - intros y Hy. destruct (decide (y = q)) as [->|Hne]; [eauto|].
    by rewrite lookup_alter_ne in Hy.
Qed.

Lemma event_generator_wf q i w : wf w -> wf (event_generator q i w).
Proof.
  intros Hwf. unfold event_generator.
  destruct (heap w !! q) as [c|] eqn:Hc; [|done].
  assert (Hfin : forall pending, unreleased c -> wf (finally_clause q pending w))
    by (intros; by eapply finally_clause_wf).
  assert (Hph : forall p, unreleased c -> (forall e, p ≠ Closed e) ->
                          wf (set_phase q p w))
    by (intros; by eapply set_phase_wf).
  unfold unreleased in Hfin, Hph.
  destruct (phase c) eqn:Hp, i as [[]| | |e]; try done;
    try (by apply Hfin); try (by apply Hph).
  destruct (items c) as [|msg rest] eqn:Hi; [done|].
  apply wf_set_heap; [done| |].
  - intros y. destruct (decide (y = q)) as [->|Hne].
    + rewrite lookup_insert_eq, Hc. split.
      * intros _. exists c. split; [done|]. unfold unreleased. by rewrite Hp.
      * intros _. eexists. split; [done|]. done.
    + by rewrite lookup_insert_ne.
  - intros y Hy. destruct (decide (y = q)) as [->|Hne]; [eauto|].
    by rewrite lookup_insert_ne in Hy.
Qed.

Lemma on_message_wf m w : wf w -> wf (on_message m w).
Proof.
  intros Hwf. unfold on_message. case_decide; [|done]. by apply put_all_wf.
Qed.

Lemma set_listener_wf s w : wf w -> wf (set_listener s w).
Proof. intros [? ? ?]. by split. Qed.

Lemma emit_wf e w : wf w -> wf (emit e w).
Proof. intros [? ? ?]. by split. Qed.

Lemma step_wf a w : wf w -> wf (step a w).
Proof.
  intros Hwf. destruct a as [| |m| | |command|q i]; simpl.
  - destruct (listener w); try done. by apply set_listener_wf, emit_wf.
  - destruct (listener w); try done. by apply set_listener_wf.
  - destruct (listener w); try done. by apply on_message_wf.
  - destruct (listener w); try done. by apply set_listener_wf.
  - by apply stream_events_wf.
  - unfold send_webcontrol_command. case_decide; [done|].
    by apply broadcast_wf.
  - by apply event_generator_wf.
Qed.

Lemma run_app tr1 tr2 w : run (tr1 ++ tr2) w = run tr2 (run tr1 w).
Proof. apply foldl_app. Qed.

Lemma run_cons a tr w : run (a :: tr) w = run tr (step a w).
Proof. done. Qed.

Lemma run_wf tr w : wf w -> wf (run tr w).
Proof.
  revert w. induction tr as [|a tr IH]; intros w Hwf; [done|].
  rewrite run_cons. by apply IH, step_wf.
Qed.

Lemma reachable_wf ch tr : wf (run tr (init_world ch)).
Proof. apply run_wf, wf_init. Qed.

(** ** What one action does to one queue *)

Lemma event_generator_lookup_ne q q' i w :
  q' ≠ q -> heap (event_generator q' i w) !! q = heap w !! q.
Proof.
  intros Hne. unfold event_generator.
  destruct (heap w !! q') as [c|] eqn:Hc; [|done].
  assert (Hfin : forall pending,
             heap (finally_clause q' pending w) !! q = heap w !! q).
  { intros pending. unfold finally_clause, remove_client.
    destruct (list_remove q' (sse_clients w)); simpl;
      by rewrite lookup_alter_ne. }
  assert (Hph : forall p, heap (set_phase q' p w) !! q = heap w !! q).
  { intros p. simpl. by rewrite lookup_alter_ne. }
  destruct (phase c), i as [[]| | |e]; try done.
  destruct (items c); [done|]. simpl. by rewrite lookup_insert_ne.
Qed.

Lemma step_closed a q w : wf w -> closed q w -> closed q (step a w).
Proof.
  intros Hwf (c & Hc & Hl).
  assert (Hq : q ∉ sse_clients w).
  { intros Hq. apply Hwf in Hq as (c' & Hc' & Hl'). congruence. }
  assert (Hput : forall msg w0, heap w0 = heap w ->
                   sse_clients w0 = sse_clients w -> closed q (put_all msg w0)).
  { intros msg w0 Hh Hs. exists c. split; [|done].
    unfold put_all. rewrite put_each_lookup by (rewrite Hs; apply Hwf).
    rewrite Hs, Hh. by case_decide. }
  destruct a as [| |m| | |command|q' i]; simpl.
  - destruct (listener w); by exists c.
  - destruct (listener w); by exists c.
  - destruct (listener w); try by exists c.
    unfold on_message. case_decide; [by apply Hput|by exists c].
  - destruct (listener w); by exists c.
  - exists c. split; [|done]. simpl. rewrite lookup_insert_ne; [done|].
    assert (q < next_ref w) by (apply Hwf; eauto). lia.
  - unfold send_webcontrol_command. case_decide; [by exists c|].
    by apply Hput.
  - destruct (decide (q' = q)) as [->|Hne].
    + unfold event_generator. rewrite Hc.
      assert (Hl' := Hl). unfold unreleased in Hl'.
      destruct (phase c); try tauto. by exists c.
    + exists c. by rewrite event_generator_lookup_ne.
Qed.

Lemma run_closed tr q w : wf w -> closed q w -> closed q (run tr w).
Proof.
  revert w. induction tr as [|a tr IH]; intros w Hwf Hc; [done|].
  rewrite run_cons. apply IH; [by apply step_wf|by apply step_closed].
Qed.

Lemma closed_not_registered q w : wf w -> closed q w -> q ∉ sse_clients w.
Proof.
  intros Hwf (c & Hc & Hl) Hq. apply Hwf in Hq as (c' & Hc' & Hl').
  congruence.
Qed.

(** A queue that exists is registered or closed. *)
Lemma registered_or_closed q w :
  wf w -> is_Some (heap w !! q) -> q ∈ sse_clients w \/ closed q w.
Proof.
  intros Hwf [c Hc]. destruct (decide (unreleased c)) as [Hl|Hl].
  - left. apply Hwf. eauto.
  - right. by exists c.
Qed.

Lemma step_keeps_heap a q w :
  wf w -> is_Some (heap w !! q) -> is_Some (heap (step a w) !! q).
Proof.
  intros Hwf [c Hc].
  assert (Hput : forall msg w0, heap w0 = heap w -> wf w0 ->
                   is_Some (heap (put_all msg w0) !! q)).
  { intros msg w0 Hh Hwf0. rewrite put_all_lookup, Hh, Hc by done.
    case_decide; simpl; eauto. }
  destruct a as [| |m| | |command|q' i]; simpl.
  - destruct (listener w); simpl; eauto.
  - destruct (listener w); simpl; eauto.
  - destruct (listener w); simpl; eauto.
    unfold on_message. case_decide; [by apply Hput|eauto].
  - destruct (listener w); simpl; eauto.
  - destruct (decide (q = next_ref w)) as [->|Hne].
    + rewrite lookup_insert_eq. eauto.
    + rewrite lookup_insert_ne by done. eauto.
  - unfold send_webcontrol_command. case_decide; simpl; [eauto|].
    apply Hput; [done|by apply emit_wf].
  - destruct (decide (q' = q)) as [->|Hne];
      [|rewrite event_generator_lookup_ne by done; eauto].
    unfold event_generator. rewrite Hc.
    unfold finally_clause, remove_client.
    destruct (phase c), i as [[]| | |e]; simpl; eauto;
      try (destruct (list_remove q (sse_clients w)); simpl;
           rewrite lookup_alter_eq, Hc; simpl; eauto; fail);
      try (rewrite lookup_alter_eq, Hc; simpl; eauto; fail).
    destruct (items c); simpl; eauto.
    rewrite lookup_insert_eq. eauto.
Qed.

(** A registered queue stays registered until its generator finishes. *)
Lemma step_registered a q w :
  wf w -> q ∈ sse_clients w ->
  q ∈ sse_clients (step a w) \/ closed q (step a w).
Proof.
  intros Hwf Hq. apply registered_or_closed; [by apply step_wf|].
  apply step_keeps_heap; [done|].
  apply Hwf in Hq as (c & -> & _). eauto.
Qed.

Lemma registered_throughout a tr q w :
  wf w -> q ∈ sse_clients w -> q ∈ sse_clients (run (a :: tr) w) ->
  q ∈ sse_clients (step a w).
Proof.
  intros Hwf Hq Hend.
  destruct (step_registered a q w Hwf Hq) as [H|Hcl]; [done|].
  exfalso. rewrite run_cons in Hend.
  assert (Hwf' : wf (step a w)) by (by apply step_wf).
  apply (closed_not_registered q (run tr (step a w))); [by apply run_wf| |done].
  by apply run_closed.
Qed.

(** ** Delivery *)

Lemma put_all_registered msg w q :
  wf w -> q ∈ sse_clients w ->
  pending q (put_all msg w) = pending q w ++ [msg]
  /\ received q (put_all msg w) = received q w ++ [msg].
Proof.
  intros Hwf Hq. unfold pending, received.
  rewrite put_all_lookup by done. case_decide; [|done].
  apply Hwf in Hq as (c & -> & _). simpl. by rewrite app_assoc.
Qed.

Lemma put_all_unregistered msg w q :
  wf w -> q ∉ sse_clients w -> heap (put_all msg w) !! q = heap w !! q.
Proof.
  intros Hwf Hq. rewrite put_all_lookup by done. by case_decide.
Qed.

Lemma put_all_clients msg w : sse_clients (put_all msg w) = sse_clients w.
Proof. apply put_each_frame. Qed.

Lemma put_all_effects msg w :
  effects (put_all msg w)
  = effects w ++ map (fun q => Put q msg) (sse_clients w).
Proof. apply put_each_effects. Qed.

Lemma broadcast_registered payload w q :
  wf w -> q ∈ sse_clients w ->
  pending q (broadcast payload w) = pending q w ++ [json_dumps payload]
  /\ received q (broadcast payload w) = received q w ++ [json_dumps payload].
Proof.
  intros Hwf Hq.
  apply (put_all_registered _ (emit (Dumps payload) w)); [by apply emit_wf|done].
Qed.

Lemma broadcast_unregistered payload w q :
  wf w -> q ∉ sse_clients w -> heap (broadcast payload w) !! q = heap w !! q.
Proof.
  intros Hwf Hq.
  apply (put_all_unregistered _ (emit (Dumps payload) w)); [by apply emit_wf|done].
Qed.

Lemma broadcast_effects payload w :
  effects (broadcast payload w)
  = effects w ++ Dumps payload
      :: map (fun q => Put q (json_dumps payload)) (sse_clients w).
Proof.
  unfold broadcast. rewrite put_all_effects. simpl. by rewrite <- app_assoc.
Qed.

Lemma step_received a q w :
  wf w -> q ∈ sse_clients w -> q ∈ sse_clients (step a w) ->
  received q (step a w) = received q w ++ produced a w.
Proof.
  intros Hwf Hq Hq'.
  destruct a as [| |m| | |command|q' i]; simpl in *.
  - rewrite app_nil_r. by destruct (listener w).
  - rewrite app_nil_r. by destruct (listener w).
  - destruct (listener w); try by rewrite app_nil_r.
    unfold on_message. case_decide; [|by rewrite app_nil_r].
    by apply put_all_registered.
  - rewrite app_nil_r. by destruct (listener w).
  - rewrite app_nil_r. unfold received. simpl.
    rewrite lookup_insert_ne; [done|].
    assert (q < next_ref w); [|lia].
    apply (wf_fresh w Hwf). apply (wf_registered w Hwf) in Hq as (c & Hc & _).
    eauto.
  - unfold send_webcontrol_command. case_decide as Hv.
    + rewrite decide_False by done. by rewrite app_nil_r.
    + rewrite decide_True by done.
      by apply broadcast_registered.
  - rewrite app_nil_r. destruct (decide (q' = q)) as [->|Hne].
    2:{ unfold received. by rewrite event_generator_lookup_ne. }
    assert (Hwf' := event_generator_wf q i w Hwf).
    apply Hwf' in Hq' as (c' & Hc' & Hl'). revert Hc' Hl'.
    apply Hwf in Hq as (c & Hc & Hl).
    unfold received at 1 2. unfold event_generator. rewrite Hc.
    unfold finally_clause, remove_client, unreleased.
    destruct (phase c) eqn:Hp, i as [[]| | |e]; simpl;
      rewrite ?Hc; try done;
      try (destruct (list_remove q (sse_clients w)); simpl;
           rewrite lookup_alter_eq, Hc; simpl;
           intros [= <-]; simpl; tauto);
      try (rewrite lookup_alter_eq, Hc; simpl; done).
    destruct (items c) as [|msg rest] eqn:Hi; simpl.
    + by rewrite Hc, Hi.
    + rewrite lookup_insert_eq. intros _ _. simpl.
      rewrite map_app. simpl. by rewrite <- app_assoc.
Qed.

(** Every queue registered throughout a trace receives exactly what was
    produced along it, in production order. *)
Lemma received_run tr q w :
  wf w -> q ∈ sse_clients w -> q ∈ sse_clients (run tr w) ->
  received q (run tr w) = received q w ++ production tr w.
Proof.
  revert w. induction tr as [|a tr IH]; intros w Hwf Hq Hend.
  - simpl. by rewrite app_nil_r.
  - assert (Hq' := registered_throughout a tr q w Hwf Hq Hend).
    rewrite run_cons in *. simpl.
    rewrite IH; [|by apply step_wf|done|done].
    rewrite step_received by done. by rewrite app_assoc.
Qed.

(** ** The listener task *)

Lemma count_app f es1 es2 : count f (es1 ++ es2) = count f es1 + count f es2.
Proof. unfold count. by rewrite filter_app, length_app. Qed.

Lemma count_puts f msg (l : list qref) :
  (forall q, f (Put q msg) = false) ->
  count f (map (fun q => Put q msg) l) = 0.
Proof.
  intros Hf. induction l as [|q l IH]; [done|].
  unfold count in *. simpl. rewrite filter_cons_False; [done|].
  rewrite Hf. done.
Qed.

Lemma event_generator_frame q i w :
  listener (event_generator q i w) = listener w
  /\ effects (event_generator q i w) = effects w.
Proof.
  unfold event_generator. destruct (heap w !! q) as [c|]; [|done].
  unfold finally_clause, remove_client.
  destruct (phase c), i as [[]| | |e]; try done;
    try (by destruct (list_remove q (sse_clients w))).
  by destruct (items c).
Qed.

Lemma put_all_subscriptions msg w :
  subscriptions (put_all msg w) = subscriptions w.
Proof.
  unfold subscriptions. rewrite put_all_effects, count_app, count_puts by done.
  lia.
Qed.

Lemma put_all_listener msg w : listener (put_all msg w) = listener w.
Proof. apply put_each_frame. Qed.

Lemma broadcast_frame payload w :
  listener (broadcast payload w) = listener w
  /\ subscriptions (broadcast payload w) = subscriptions w.
Proof.
  unfold broadcast. rewrite put_all_listener, put_all_subscriptions.
  split; [done|]. unfold subscriptions. simpl. rewrite count_app.
  assert (count is_subscribe [Dumps payload] = 0) as -> by done. lia.
Qed.

(** One [subscribe] when the task starts, none before and none after. *)
Lemma subscriptions_run ch tr :
  subscriptions (run tr (init_world ch))
  = match listener (run tr (init_world ch)) with
    | NotStarted => 0
    | _ => 1
    end.
Proof.
  induction tr as [|a tr IH] using rev_ind; [done|].
  rewrite run_app. simpl. set (w := run tr (init_world ch)) in *.
  destruct a as [| |m| | |command|q i]; simpl.
  - destruct (listener w) eqn:E; simpl; rewrite ?E; try done.
    unfold subscriptions in *. simpl. rewrite count_app, IH. done.
  - destruct (listener w) eqn:E; simpl; rewrite ?E; done.
  - destruct (listener w) eqn:E; simpl; rewrite ?E; try done.
    unfold on_message. case_decide; [|by rewrite E].
    by rewrite put_all_subscriptions, put_all_listener, E.
  - destruct (listener w) eqn:E; simpl; rewrite ?E; done.
  - done.
  - unfold send_webcontrol_command. case_decide; [done|]. simpl.
    destruct (broadcast_frame (webcontrol_payload command) w) as [Hl Hs].
    unfold webcontrol_payload in Hl, Hs. by rewrite Hl, Hs.
  - by destruct (event_generator_frame q i w) as [-> Hs];
      unfold subscriptions in *; rewrite Hs.
Qed.

Lemma step_crashed a w :
  listener w = Crashed ->
  listener (step a w) = Crashed /\ subscriptions (step a w) = subscriptions w.
Proof.
  intros E. destruct a as [| |m| | |command|q i]; simpl; rewrite ?E; try done.
  - unfold send_webcontrol_command. case_decide; [done|]. simpl.
    destruct (broadcast_frame (webcontrol_payload command) w) as [Hl Hs].
    unfold webcontrol_payload in Hl, Hs. by rewrite Hl, Hs.
  - by destruct (event_generator_frame q i w) as [-> Hs];
      unfold subscriptions; rewrite Hs.
Qed.

Lemma run_crashed tr w :
  listener w = Crashed ->
  listener (run tr w) = Crashed /\ subscriptions (run tr w) = subscriptions w.
Proof.
  revert w. induction tr as [|a tr IH]; intros w E; [done|].
  rewrite run_cons. destruct (step_crashed a w E) as [E' <-]. by apply IH.
Qed.

(** ** Leaving the generator *)

Lemma finally_clause_spec w q c pending :
  wf w -> heap w !! q = Some c -> unreleased c ->
  (q ∉ sse_clients (finally_clause q pending w))
  /\ heap (finally_clause q pending w) !! q
     = Some (with_phase (Closed pending) c)
  /\ forall y, y ≠ q ->
       (y ∈ sse_clients (finally_clause q pending w) <-> y ∈ sse_clients w).
Proof.
  intros Hwf Hc Hl.
  destruct (remove_client_unreleased w q c Hwf Hc Hl)
    as (l' & Hrm & _ & Hl').
  unfold finally_clause. rewrite Hrm. simpl. split_and!.
  - rewrite Hl'. tauto.
  - by rewrite lookup_alter_eq, Hc.
  - intros y Hy. rewrite Hl'. tauto.
Qed.

Lemma event_generator_throw w q c e :
  heap w !! q = Some c -> running c ->
  event_generator q (Throw e) w = finally_clause q (Some e) w.
Proof.
  intros Hc Hl. unfold event_generator. rewrite Hc.
  unfold running in Hl. by destruct (phase c).
Qed.

Lemma event_generator_disconnected w q c :
  heap w !! q = Some c -> phase c = AtProbe ->
  event_generator q (Disconnected true) w = finally_clause q None w.
Proof. intros Hc Hp. unfold event_generator. by rewrite Hc, Hp. Qed.

(** ** Registrations from the empty registry *)

Lemma run_get_events ch N :
  sse_clients (run (replicate N GetEvents) (init_world ch)) = seq 0 N
  /\ next_ref (run (replicate N GetEvents) (init_world ch)) = N
  /\ forall q, q ∈ sse_clients (run (replicate N GetEvents) (init_world ch)) ->
       heap (run (replicate N GetEvents) (init_world ch)) !! q
       = Some new_client.
Proof.
  induction N as [|N IH].
  - split_and!; [done..|]. intros q Hq. by apply elem_of_nil in Hq.
  - rewrite replicate_S_end, run_app.
    set (w := run (replicate N GetEvents) (init_world ch)) in *.
    destruct IH as (Hs & Hn & Hh). simpl. rewrite Hs, Hn.
    split_and!.
    + symmetry. apply seq_S.
    + done.
    + intros q Hq. apply elem_of_app in Hq as [Hq|Hq].
      * rewrite lookup_insert_ne.
        -- apply Hh. by rewrite Hs.
        -- apply list_elem_of_In, in_seq in Hq. lia.
      * apply list_elem_of_singleton in Hq as ->.
        by rewrite lookup_insert_eq.
Qed.

Lemma count_put_on q msg (l : list qref) :
  NoDup l ->
  count (is_put_on q) (map (fun q' => Put q' msg) l)
  = if decide (q ∈ l) then 1 else 0.
Proof.
  induction l as [|x l IH]; intros Hnd.
  - by rewrite decide_False by apply not_elem_of_nil.
  - apply NoDup_cons in Hnd as [Hx Hnd]. specialize (IH Hnd).
    unfold count in *. simpl.
    destruct (decide (x = q)) as [->|Hne].
    + rewrite filter_cons_True by (simpl; by rewrite bool_decide_eq_true).
      simpl. rewrite IH.
      rewrite (decide_False (P := q ∈ l)) by done.
      by rewrite decide_True by (by left).
    + rewrite filter_cons_False
        by (simpl; rewrite bool_decide_eq_false_2; done).
      rewrite IH. destruct (decide (q ∈ l)) as [Hq|Hq].
      * by rewrite decide_True by (by right).
      * rewrite decide_False; [done|].
        intros [->|?]%elem_of_cons; done.
Qed.

(** * The claims *)

(** ** Commands *)

Lemma valid_commands_spec command :
  command ∈ valid_commands
  <-> command = "pp" \/ command = "fwd" \/ command = "rew" \/ command = "out".
Proof.
  unfold valid_commands. rewrite !elem_of_union, !elem_of_singleton. tauto.
Qed.

(** A command of the vocabulary reaches every registered queue. *)
Lemma webcontrol_reaches_registered ch tr command q :
  command ∈ valid_commands ->
  q ∈ sse_clients (run tr (init_world ch)) ->
  pending q (step (PutWebcontrol command) (run tr (init_world ch)))
  = pending q (run tr (init_world ch))
      ++ [json_dumps (webcontrol_payload command)].
Proof.
  intros Hv Hq. simpl. unfold send_webcontrol_command.
  rewrite decide_False by tauto. simpl.
  apply broadcast_registered; [apply reachable_wf|done].
Qed.

(** C1, as the code has it.  For a command of the vocabulary and every
    reachable state, [send_webcontrol_command] broadcasts the payload
    [{"type": "webcontrol", "command": command}] and answers 202 with
    [{"status": "Command queued"}]; every queue registered at that moment
    gets the serialised payload appended, the other queues and the registry
    are untouched. *)
Theorem send_webcontrol_command_accepts ch tr command :
  command ∈ valid_commands ->
  send_webcontrol_command command (run tr (init_world ch))
  = (broadcast (webcontrol_payload command) (run tr (init_world ch)),
     mkJSONResponse 202 (JObj [("status", JStr "Command queued")]))
  /\ (forall q, q ∈ sse_clients (run tr (init_world ch)) ->
        pending q (fst (send_webcontrol_command command
                          (run tr (init_world ch))))
        = pending q (run tr (init_world ch))
            ++ [json_dumps (webcontrol_payload command)])
  /\ (forall q, q ∉ sse_clients (run tr (init_world ch)) ->
        heap (fst (send_webcontrol_command command
                     (run tr (init_world ch)))) !! q
        = heap (run tr (init_world ch)) !! q)
  /\ sse_clients (fst (send_webcontrol_command command
                         (run tr (init_world ch))))
     = sse_clients (run tr (init_world ch)).
Proof.
  intros Hv. set (w := run tr (init_world ch)).
  assert (Hwf : wf w) by apply reachable_wf.
  assert (Heq : send_webcontrol_command command w
                = (broadcast (webcontrol_payload command) w,
                   mkJSONResponse 202
                     (JObj [("status", JStr "Command queued")]))).
  { unfold send_webcontrol_command. by rewrite decide_False by tauto. }
  rewrite Heq. simpl. split_and!.
  - done.
  - intros q Hq. by apply broadcast_registered.
  - intros q Hq. by apply broadcast_unregistered.
  - unfold broadcast. by rewrite put_all_clients.
Qed.

Lemma send_webcontrol_command_accepts_pp :
  "pp" ∈ valid_commands
  /\ forall q, q ∈ sse_clients (run [GetEvents] (init_world "updates")) ->
       pending q (fst (send_webcontrol_command "pp"
                         (run [GetEvents] (init_world "updates"))))
       = pending q (run [GetEvents] (init_world "updates"))
           ++ [json_dumps (webcontrol_payload "pp")].
Proof.
  split.
  - apply valid_commands_spec. by left.
  - apply (send_webcontrol_command_accepts "updates" [GetEvents] "pp").
    apply valid_commands_spec. by left.
Defined.

(** C1 as stated fails: after [PUT /webcontrol/pp] the registered queue
    holds the text of a payload of type ["webcontrol"], which is not the
    text of [{"type": "control", "command": "pp"}]. *)
Lemma send_webcontrol_command_not_control :
  0 ∈ sse_clients (run [GetEvents] (init_world "updates"))
  /\ pending 0 (fst (send_webcontrol_command "pp"
                       (run [GetEvents] (init_world "updates"))))
     = [webcontrol_text "pp"]
  /\ webcontrol_text "pp" ≠ json_dumps (control_payload "pp")
  /\ fst (send_webcontrol_command "pp"
            (run [GetEvents] (init_world "updates")))
     ≠ broadcast (control_payload "pp")
         (run [GetEvents] (init_world "updates")).
Proof.
  split_and!.
  - vm_compute. apply list_elem_of_here.
  - vm_compute. reflexivity.
  - vm_compute. discriminate.
  - intros H. apply (f_equal (pending 0)) in H. vm_compute in H.
    discriminate.
Qed.

(** C4.  A command outside the vocabulary is answered 400 with
    [{"error": "Invalid command"}] and changes nothing: no queue, no
    registry entry, no effect.  The answer is 202 exactly for the four
    tokens [pp], [fwd], [rew] and [out]. *)
Theorem send_webcontrol_command_rejects command w :
  (command ∉ valid_commands ->
     send_webcontrol_command command w
     = (w, mkJSONResponse 400 (JObj [("error", JStr "Invalid command")]))
     /\ step (PutWebcontrol command) w = w)
  /\ (status_code (snd (send_webcontrol_command command w)) = 202
      <-> command = "pp" \/ command = "fwd" \/ command = "rew"
          \/ command = "out").
Proof.
  rewrite <- valid_commands_spec. split.
  - intros Hv. unfold step, send_webcontrol_command.
    by rewrite decide_True by done.
  - unfold send_webcontrol_command.
    destruct (decide (command ∉ valid_commands)) as [Hv|Hv]; simpl.
    + split; [discriminate|tauto].
    + split; [intros _; by apply dec_stable|done].
Qed.

Lemma send_webcontrol_command_rejects_xyz :
  ("xyz" ∉ valid_commands)
  /\ send_webcontrol_command "xyz" (run [GetEvents] (init_world "updates"))
     = (run [GetEvents] (init_world "updates"),
        mkJSONResponse 400 (JObj [("error", JStr "Invalid command")]))
  /\ step (PutWebcontrol "xyz") (run [GetEvents] (init_world "updates"))
     = run [GetEvents] (init_world "updates").
Proof.
  assert (Hv : "xyz" ∉ valid_commands).
  { rewrite valid_commands_spec. intros [H|[H|[H|H]]]; discriminate H. }
  split; [exact Hv|].
  apply (send_webcontrol_command_rejects "xyz"
           (run [GetEvents] (init_world "updates"))).
  exact Hv.
Defined.

(** ** The upstream listener *)

(** C9.  An entry of [pubsub.listen()] whose type is not ["message"] is
    dropped: the listener leaves the whole state as it was, so no queue
    receives anything. *)
Theorem on_message_drops_other_types m w :
  entry_type m ≠ "message" ->
  on_message m w = w /\ step (Upstream m) w = w.
Proof.
  intros Hm.
  assert (H : on_message m w = w)
    by (unfold on_message; by rewrite decide_False by done).
  split; [done|]. simpl. by destruct (listener w).
Qed.

Lemma on_message_drops_subscribe :
  entry_type (mkEntry "subscribe" "1") ≠ "message"
  /\ step (Upstream (mkEntry "subscribe" "1"))
       (run [Startup; GetEvents] (init_world "updates"))
     = run [Startup; GetEvents] (init_world "updates").
Proof.
  assert (Hm : entry_type (mkEntry "subscribe" "1") ≠ "message")
    by (simpl; discriminate).
  split; [exact Hm|].
  apply (on_message_drops_other_types (mkEntry "subscribe" "1")
           (run [Startup; GetEvents] (init_world "updates")) Hm).
Defined.

(** C7.  While the listener is in its loop, an entry of type ["message"]
    has its ["data"] handed as it is, with no serialisation, to the fan-out
    over the registry snapshot, the same loop that [broadcast] runs on its
    text: every queue registered at that moment gets the data appended, the
    other queues and the registry are untouched. *)
Theorem on_message_verbatim ch tr m :
  entry_type m = "message" ->
  listener (run tr (init_world ch)) = Listening ->
  step (Upstream m) (run tr (init_world ch))
  = put_all (entry_data m) (run tr (init_world ch))
  /\ effects (step (Upstream m) (run tr (init_world ch)))
  = effects (run tr (init_world ch))
      ++ map (fun q => Put q (entry_data m))
             (sse_clients (run tr (init_world ch)))
  /\ (forall q, q ∈ sse_clients (run tr (init_world ch)) ->
        pending q (step (Upstream m) (run tr (init_world ch)))
        = pending q (run tr (init_world ch)) ++ [entry_data m])
  /\ (forall q, q ∉ sse_clients (run tr (init_world ch)) ->
        heap (step (Upstream m) (run tr (init_world ch))) !! q
        = heap (run tr (init_world ch)) !! q)
  /\ sse_clients (step (Upstream m) (run tr (init_world ch)))
     = sse_clients (run tr (init_world ch)).
Proof.
  intros Hm Hl. set (w := run tr (init_world ch)) in *.
  assert (Hwf : wf w) by apply reachable_wf.
  simpl. rewrite Hl. unfold on_message. rewrite decide_True by done.
  split_and!.
  - done.
  - apply put_all_effects.
  - intros q Hq. by apply put_all_registered.
  - intros q Hq. by apply put_all_unregistered.
  - apply put_all_clients.
Qed.

Lemma on_message_verbatim_A :
  entry_type (mkEntry "message" "A") = "message"
  /\ listener (run [Startup; GetEvents] (init_world "updates")) = Listening
  /\ forall q, q ∈ sse_clients (run [Startup; GetEvents] (init_world "updates")) ->
       pending q (step (Upstream (mkEntry "message" "A"))
                    (run [Startup; GetEvents] (init_world "updates")))
       = pending q (run [Startup; GetEvents] (init_world "updates"))
           ++ [entry_data (mkEntry "message" "A")].
Proof.
  split; [reflexivity|]. split; [reflexivity|].
  destruct (on_message_verbatim "updates" [Startup; GetEvents]
              (mkEntry "message" "A") eq_refl eq_refl)
    as (_ & _ & Hput & _).
  exact Hput.
Defined.

Lemma event_generator_channel q i w :
  UPDATE_CHANNEL (event_generator q i w) = UPDATE_CHANNEL w.
Proof.
  unfold event_generator. destruct (heap w !! q) as [c|]; [|done].
  unfold finally_clause, remove_client.
  destruct (phase c), i as [[]| | |e]; try done;
    try (by destruct (list_remove q (sse_clients w))).
  by destruct (items c).
Qed.

Lemma put_all_channels msg w :
  UPDATE_CHANNEL (put_all msg w) = UPDATE_CHANNEL w
  /\ subscribed_channels (put_all msg w) = subscribed_channels w.
Proof.
  split; [apply put_each_frame|].
  unfold subscribed_channels. rewrite put_all_effects, omap_app.
  assert (Hno : omap (fun e => match e with
                               | Subscribe channel => Some channel
                               | _ => None
                               end)
                  (map (fun q => Put q msg) (sse_clients w)) = []).
  { induction (sse_clients w) as [|q l IH]; [done|]. exact IH. }
  by rewrite Hno, app_nil_r.
Qed.

(** The channel is the configured one, and the [subscribe] calls made so far
    are none before the listener task starts and one, on that channel, from
    then on. *)
Lemma subscribed_channels_run ch tr :
  UPDATE_CHANNEL (run tr (init_world ch)) = ch
  /\ subscribed_channels (run tr (init_world ch))
     = match listener (run tr (init_world ch)) with
       | NotStarted => []
       | _ => [ch]
       end.
Proof.
  induction tr as [|a tr IH] using rev_ind; [done|].
  rewrite run_app. simpl. set (w := run tr (init_world ch)) in *.
  destruct IH as [Hch Hsub].
  destruct a as [| |m| | |command|q i]; simpl.
  - destruct (listener w) eqn:E; simpl; rewrite ?E; try done.
    split; [done|]. unfold subscribed_channels in *. simpl.
    by rewrite omap_app, Hsub, Hch.
  - destruct (listener w) eqn:E; simpl; rewrite ?E; done.
  - destruct (listener w) eqn:E; simpl; rewrite ?E; try done.
    unfold on_message. case_decide; [|by rewrite E].
    destruct (put_all_channels (entry_data m) w) as [-> ->].
    by rewrite put_all_listener, E.
  - destruct (listener w) eqn:E; simpl; rewrite ?E; done.
  - done.
  - unfold send_webcontrol_command. case_decide; [done|]. simpl.
    unfold broadcast.
    destruct (put_all_channels
                (json_dumps (JObj [("type", JStr "webcontrol");
                                   ("command", JStr command)]))
                (emit (Dumps (JObj [("type", JStr "webcontrol");
                                    ("command", JStr command)])) w))
      as [-> ->].
    rewrite put_all_listener. simpl. split; [done|].
    unfold subscribed_channels in *. simpl.
    by rewrite omap_app, Hsub, app_nil_r.
  - destruct (event_generator_frame q i w) as [-> He].
    rewrite event_generator_channel. split; [done|].
    unfold subscribed_channels in *. by rewrite He.
Qed.

Lemma step_not_started a w :
  listener (step a w) = NotStarted <-> listener w = NotStarted /\ a ≠ Startup.
Proof.
  destruct a as [| |m| | |command|q i]; simpl.
  - destruct (listener w) eqn:E; simpl; rewrite ?E; split;
      try discriminate; intros [? ?]; done.
  - destruct (listener w) eqn:E; simpl; rewrite ?E; split;
      try discriminate; try (intros [? ?]; done); done.
  - destruct (listener w) eqn:E; simpl; rewrite ?E;
      try (split; [done|by intros [? ?]]).
    unfold on_message. case_decide; rewrite ?put_all_listener, E;
      (split; [done|by intros [? ?]]).
  - destruct (listener w) eqn:E; simpl; rewrite ?E; split;
      try discriminate; try (intros [? ?]; done); done.
  - split; [done|by intros [? ?]].
  - unfold send_webcontrol_command. case_decide; simpl.
    + split; [done|by intros [? ?]].
    + destruct (broadcast_frame (webcontrol_payload command) w) as [Hf _].
      unfold webcontrol_payload in Hf. rewrite Hf.
      split; [done|by intros [? ?]].
  - destruct (event_generator_frame q i w) as [-> _].
    split; [done|by intros [? ?]].
Qed.

Lemma not_started_iff ch tr :
  listener (run tr (init_world ch)) = NotStarted <-> Startup ∉ tr.
Proof.
  induction tr as [|a tr IH] using rev_ind.
  - split; [intros _; apply not_elem_of_nil|done].
  - rewrite run_app. simpl. rewrite step_not_started, IH.
    rewrite not_elem_of_app, list_elem_of_singleton. split.
    + intros [Hno Hne]. split; [done|]. intros Heq. by apply Hne.
    + intros [Hno Hne]. split; [done|]. intros Heq. by apply Hne.
Qed.

(** C2, as the code has it.  [redis_listener] subscribes exactly once, to
    [UPDATE_CHANNEL], when its task starts: along any trace the [subscribe]
    calls made are none if the task was never started and one, on the
    configured channel, otherwise.  An error raised by [pubsub.listen()]
    ends the listener task; from then on no trace brings it back, no
    further [subscribe] happens and later upstream entries reach no queue.
    The rest of the process goes on: commands are still broadcast. *)
Theorem redis_listener_subscribes_once ch tr :
  (Startup ∈ tr -> subscribed_channels (run tr (init_world ch)) = [ch])
  /\ (Startup ∉ tr -> subscribed_channels (run tr (init_world ch)) = [])
  /\ subscriptions (run tr (init_world ch)) <= 1
  /\ (listener (run tr (init_world ch)) = Listening ->
      listener (step UpstreamError (run tr (init_world ch))) = Crashed)
  /\ (listener (run tr (init_world ch)) = Crashed ->
      forall tr',
        listener (run tr' (run tr (init_world ch))) = Crashed
        /\ subscriptions (run tr' (run tr (init_world ch)))
           = subscriptions (run tr (init_world ch))
        /\ subscribed_channels (run tr' (run tr (init_world ch))) = [ch]
        /\ (forall m, step (Upstream m) (run tr' (run tr (init_world ch)))
                      = run tr' (run tr (init_world ch)))
        /\ (forall command q,
              command ∈ valid_commands ->
              q ∈ sse_clients (run tr' (run tr (init_world ch))) ->
              pending q (step (PutWebcontrol command)
                           (run tr' (run tr (init_world ch))))
              = pending q (run tr' (run tr (init_world ch)))
                  ++ [json_dumps (webcontrol_payload command)])).
Proof.
  destruct (subscribed_channels_run ch tr) as [_ Hsub].
  split_and!.
  - intros Hin. rewrite Hsub.
    destruct (listener (run tr (init_world ch))) eqn:E; try done.
    apply not_started_iff in E. done.
  - intros Hout. rewrite Hsub.
    by rewrite (proj2 (not_started_iff ch tr) Hout).
  - rewrite subscriptions_run. destruct (listener _); lia.
  - intros Hl. simpl. by rewrite Hl.
  - intros Hl tr'.
    destruct (run_crashed tr' _ Hl) as [Hl' Hs'].
    split_and!; [done|done| | |].
    + rewrite <- run_app in *.
      destruct (subscribed_channels_run ch (tr ++ tr')) as [_ ->].
      by rewrite Hl'.
    + intros m. simpl. by rewrite Hl'.
    + intros command q Hv Hq. rewrite <- run_app in *.
      by apply webcontrol_reaches_registered.
Qed.

Lemma redis_listener_subscribes_once_crash :
  (Startup ∈ [Startup; GetEvents; UpstreamError])
  /\ subscribed_channels
       (run [Startup; GetEvents; UpstreamError] (init_world "updates"))
     = ["updates"]
  /\ listener (run [Startup; GetEvents; UpstreamError] (init_world "updates"))
     = Crashed
  /\ forall tr',
       listener (run tr' (run [Startup; GetEvents; UpstreamError]
                            (init_world "updates"))) = Crashed
       /\ subscribed_channels
            (run tr' (run [Startup; GetEvents; UpstreamError]
                        (init_world "updates")))
          = ["updates"].
Proof.
  assert (Hin : Startup ∈ [Startup; GetEvents; UpstreamError])
    by apply list_elem_of_here.
  destruct (redis_listener_subscribes_once "updates"
              [Startup; GetEvents; UpstreamError])
    as (Hsub & _ & _ & _ & H).
  split; [exact Hin|]. split; [exact (Hsub Hin)|].
  split; [reflexivity|]. intros tr'.
  destruct (H eq_refl tr') as (Hl & _ & Hch & _). split; [exact Hl|exact Hch].
Defined.

(** C2 as stated fails: the listener is in its loop, [pubsub.listen()]
    raises, and the task is over.  The count of [subscribe] calls stays at
    one and the message published afterwards reaches no queue. *)
Lemma redis_listener_no_resubscription :
  listener (run [Startup; GetEvents; Upstream (mkEntry "message" "A")]
              (init_world "updates")) = Listening
  /\ listener (run [Startup; GetEvents; Upstream (mkEntry "message" "A");
                    UpstreamError] (init_world "updates")) = Crashed
  /\ subscriptions (run [Startup; GetEvents; Upstream (mkEntry "message" "A");
                         UpstreamError; Upstream (mkEntry "message" "B")]
                      (init_world "updates")) = 1
  /\ pending 0 (run [Startup; GetEvents; Upstream (mkEntry "message" "A");
                     UpstreamError; Upstream (mkEntry "message" "B")]
                  (init_world "updates")) = ["A"].
Proof. split_and!; vm_compute; reflexivity. Qed.

(** ** Registration and deregistration *)

(** C3, as the code has it.  [sse_clients.remove(queue)] raises [ValueError]
    for a queue that is not in the registry, and then changes nothing; for a
    registered queue it drops its first occurrence.  It is not idempotent:
    in a registry without duplicates a second removal of the same queue
    raises. *)
Theorem remove_client_raises_when_absent q w :
  (q ∉ sse_clients w -> remove_client q w = inl ValueError)
  /\ (q ∈ sse_clients w ->
      exists l1 l2, sse_clients w = l1 ++ q :: l2 /\ (q ∉ l1)
                    /\ remove_client q w = inr (set_clients (l1 ++ l2) w))
  /\ (NoDup (sse_clients w) ->
      forall w', remove_client q w = inr w' ->
                 (q ∉ sse_clients w') /\ remove_client q w' = inl ValueError).
Proof.
  unfold remove_client. split_and!.
  - intros Hq. by rewrite list_remove_absent.
  - intros Hq. apply list_remove_present in Hq as (l1 & l2 & Hl & Hl1 & Hrm).
    exists l1, l2. by rewrite Hrm.
  - intros Hnd w' Hrm.
    destruct (list_remove q (sse_clients w)) as [l'|] eqn:E; [|done].
    injection Hrm as <-. simpl.
    apply list_remove_nodup in E as [_ Hl']; [|done].
    assert (Hq : q ∉ l') by (rewrite Hl'; tauto).
    split; [done|]. by rewrite list_remove_absent.
Qed.

Lemma remove_client_raises_twice :
  (0 ∈ sse_clients (run [GetEvents; GetEvents] (init_world "updates")))
  /\ NoDup (sse_clients (run [GetEvents; GetEvents] (init_world "updates")))
  /\ exists w',
       remove_client 0 (run [GetEvents; GetEvents] (init_world "updates"))
       = inr w'
       /\ remove_client 0 w' = inl ValueError.
Proof.
  assert (Hin : 0 ∈ sse_clients
                      (run [GetEvents; GetEvents] (init_world "updates")))
    by (vm_compute; apply list_elem_of_here).
  assert (Hnd : NoDup (sse_clients
                         (run [GetEvents; GetEvents] (init_world "updates"))))
    by apply wf_nodup, reachable_wf.
  split; [exact Hin|]. split; [exact Hnd|].
  destruct (remove_client_raises_when_absent 0
              (run [GetEvents; GetEvents] (init_world "updates")))
    as (_ & Hpresent & Htwice).
  destruct (Hpresent Hin) as (l1 & l2 & _ & _ & Hrm).
  exists (set_clients (l1 ++ l2)
            (run [GetEvents; GetEvents] (init_world "updates"))).
  split; [exact Hrm|]. exact (proj2 (Htwice Hnd _ Hrm)).
Defined.

(** C3 as stated fails: removing a queue that was never registered, or one
    whose session has already removed it, raises [ValueError]. *)
Lemma remove_client_absent_raises :
  (7 ∉ sse_clients (init_world "updates"))
  /\ remove_client 7 (init_world "updates") = inl ValueError
  /\ (0 ∉ sse_clients (run [GetEvents; Session 0 Next; Session 0 (Disconnected true)]
                         (init_world "updates")))
  /\ remove_client 0 (run [GetEvents; Session 0 Next; Session 0 (Disconnected true)]
                        (init_world "updates")) = inl ValueError.
Proof.
  split_and!.
  - vm_compute. apply not_elem_of_nil.
  - vm_compute. reflexivity.
  - vm_compute. apply not_elem_of_nil.
  - vm_compute. reflexivity.
Qed.

Lemma step_dropped a q w :
  wf w ->
  (exists c, heap w !! q = Some c /\ phase c = Dropped) ->
  exists c, heap (step a w) !! q = Some c /\ phase c = Dropped.
Proof.
  intros Hwf (c & Hc & Hp).
  assert (Hput : forall msg w0, heap w0 = heap w ->
                   sse_clients w0 = sse_clients w ->
                   exists c', heap (put_all msg w0) !! q = Some c'
                              /\ phase c' = Dropped).
  { intros msg w0 Hh Hs. unfold put_all.
    rewrite put_each_lookup by (rewrite Hs; apply Hwf). rewrite Hs, Hh, Hc.
    case_decide; simpl; eauto. }
  destruct a as [| |m| | |command|q' i]; simpl.
  - destruct (listener w); simpl; eauto.
  - destruct (listener w); simpl; eauto.
  - destruct (listener w); simpl; eauto.
    unfold on_message. case_decide; [by apply Hput|eauto].
  - destruct (listener w); simpl; eauto.
  - exists c. split; [|done]. rewrite lookup_insert_ne; [done|].
    assert (q < next_ref w) by (apply (wf_fresh w Hwf); eauto). lia.
  - unfold send_webcontrol_command. case_decide; simpl; [eauto|].
    by apply Hput.
  - destruct (decide (q' = q)) as [->|Hne].
    + unfold event_generator. rewrite Hc, Hp. eauto.
    + exists c. by rewrite event_generator_lookup_ne.
Qed.

Lemma run_dropped tr q w :
  wf w ->
  (exists c, heap w !! q = Some c /\ phase c = Dropped) ->
  exists c, heap (run tr w) !! q = Some c /\ phase c = Dropped.
Proof.
  revert w. induction tr as [|a tr IH]; intros w Hwf Hd; [done|].
  rewrite run_cons. apply IH; [by apply step_wf|by apply step_dropped].
Qed.

(** C6, where the code breaks it.  [stream_events] registers the queue while
    the generator is merely created.  When that generator is closed or
    cancelled before its first resumption, neither its body nor its
    [finally] clause runs: the generator is finished, yet in every later
    state its queue is still in the registry and has received everything
    produced since. *)
Theorem unstarted_generator_leaks_queue ch tr q c e tr' :
  heap (run tr (init_world ch)) !! q = Some c ->
  phase c = Created ->
  (exists c',
     heap (run tr' (step (Session q (Throw e)) (run tr (init_world ch)))) !! q
     = Some c'
     /\ phase c' = Dropped)
  /\ q ∈ sse_clients
           (run tr' (step (Session q (Throw e)) (run tr (init_world ch))))
  /\ received q
       (run tr' (step (Session q (Throw e)) (run tr (init_world ch))))
     = received q (run tr (init_world ch))
         ++ production tr'
              (step (Session q (Throw e)) (run tr (init_world ch))).
Proof.
  intros Hc Hp. set (w := run tr (init_world ch)) in *.
  assert (Hwf : wf w) by apply reachable_wf.
  assert (Hwf1 : wf (step (Session q (Throw e)) w)) by (by apply step_wf).
  assert (Hstep : step (Session q (Throw e)) w = set_phase q Dropped w).
  { simpl. unfold event_generator. by rewrite Hc, Hp. }
  assert (Hd : exists c', heap (step (Session q (Throw e)) w) !! q = Some c'
                          /\ phase c' = Dropped).
  { rewrite Hstep. simpl. rewrite lookup_alter_eq, Hc. simpl. eauto. }
  assert (Hend := run_dropped tr' q _ Hwf1 Hd).
  assert (Hreg : forall w0, wf w0 ->
                   (exists c', heap w0 !! q = Some c' /\ phase c' = Dropped) ->
                   q ∈ sse_clients w0).
  { intros w0 Hwf0 (c' & Hc' & Hp'). apply Hwf0. exists c'.
    split; [done|]. unfold unreleased. by rewrite Hp'. }
  split_and!.
  - done.
  - apply Hreg; [by apply run_wf|done].
  - rewrite (received_run tr' q _ Hwf1);
      [|by apply Hreg|apply Hreg; [by apply run_wf|done]].
    f_equal. unfold received. rewrite Hstep. simpl.
    by rewrite lookup_alter_eq, Hc.
Qed.

Lemma unstarted_generator_leaks_queue_cancelled :
  heap (run [GetEvents] (init_world "updates")) !! 0 = Some new_client
  /\ phase new_client = Created
  /\ (0 ∈ sse_clients
           (run [PutWebcontrol "pp"]
              (step (Session 0 (Throw CancelledError))
                 (run [GetEvents] (init_world "updates")))))
  /\ received 0
       (run [PutWebcontrol "pp"]
          (step (Session 0 (Throw CancelledError))
             (run [GetEvents] (init_world "updates"))))
     = [webcontrol_text "pp"].
Proof.
  assert (Hc : heap (run [GetEvents] (init_world "updates")) !! 0
               = Some new_client) by (vm_compute; reflexivity).
  split; [exact Hc|]. split; [reflexivity|].
  destruct (unstarted_generator_leaks_queue "updates" [GetEvents] 0
              new_client CancelledError [PutWebcontrol "pp"] Hc eq_refl)
    as (_ & Hin & Hrecv).
  split; [exact Hin|]. rewrite Hrecv. vm_compute. reflexivity.
Defined.

(** ** Fan-out *)

(** C5.  In every reachable state [broadcast payload] serialises the payload
    once and then puts that one text once on each queue of the registry
    snapshot, in registry order, and on no other queue; the registry is
    unchanged.  After [N] registrations from the empty registry exactly [N]
    queues hold the text.  With an empty registry nothing is delivered, and
    a queue registered after the broadcast starts empty and receives only
    what is produced from then on. *)
Theorem broadcast_fan_out ch tr payload :
  effects (broadcast payload (run tr (init_world ch)))
  = effects (run tr (init_world ch))
      ++ Dumps payload
         :: map (fun q => Put q (json_dumps payload))
                (sse_clients (run tr (init_world ch)))
  /\ count is_dumps
       (Dumps payload
        :: map (fun q => Put q (json_dumps payload))
               (sse_clients (run tr (init_world ch)))) = 1
  /\ (forall q,
        count (is_put_on q)
          (Dumps payload
           :: map (fun q' => Put q' (json_dumps payload))
                  (sse_clients (run tr (init_world ch))))
        = if decide (q ∈ sse_clients (run tr (init_world ch))) then 1 else 0)
  /\ (forall q, q ∈ sse_clients (run tr (init_world ch)) ->
        pending q (broadcast payload (run tr (init_world ch)))
        = pending q (run tr (init_world ch)) ++ [json_dumps payload])
  /\ (forall q, q ∉ sse_clients (run tr (init_world ch)) ->
        heap (broadcast payload (run tr (init_world ch))) !! q
        = heap (run tr (init_world ch)) !! q)
  /\ sse_clients (broadcast payload (run tr (init_world ch)))
     = sse_clients (run tr (init_world ch))
  /\ (forall N,
        length (sse_clients (run (replicate N GetEvents) (init_world ch)))
        = N
        /\ NoDup (sse_clients (run (replicate N GetEvents) (init_world ch)))
        /\ forall q,
             pending q (broadcast payload
                          (run (replicate N GetEvents) (init_world ch)))
             = if decide (q < N) then [json_dumps payload] else [])
  /\ (sse_clients (run tr (init_world ch)) = [] ->
      heap (broadcast payload (run tr (init_world ch)))
      = heap (run tr (init_world ch))
      /\ effects (broadcast payload (run tr (init_world ch)))
         = effects (run tr (init_world ch)) ++ [Dumps payload])
  /\ (received
        (snd (stream_events (broadcast payload (run tr (init_world ch)))))
        (fst (stream_events (broadcast payload (run tr (init_world ch)))))
      = []
      /\ forall tr2,
           snd (stream_events (broadcast payload (run tr (init_world ch))))
             ∈ sse_clients
                 (run tr2 (fst (stream_events
                                  (broadcast payload
                                     (run tr (init_world ch)))))) ->
           received
             (snd (stream_events (broadcast payload (run tr (init_world ch)))))
             (run tr2 (fst (stream_events
                              (broadcast payload (run tr (init_world ch))))))
           = production tr2
               (fst (stream_events
                       (broadcast payload (run tr (init_world ch)))))).
Proof.
  set (w := run tr (init_world ch)).
  assert (Hwf : wf w) by apply reachable_wf.
  split_and!.
  - apply broadcast_effects.
  - change (count is_dumps ([Dumps payload]
              ++ map (fun q => Put q (json_dumps payload)) (sse_clients w))
            = 1).
    by rewrite count_app, count_puts.
  - intros q.
    change (count (is_put_on q) ([Dumps payload]
              ++ map (fun q' => Put q' (json_dumps payload)) (sse_clients w))
            = if decide (q ∈ sse_clients w) then 1 else 0).
    rewrite count_app, count_put_on by apply Hwf. done.
  - intros q Hq. by apply broadcast_registered.
  - intros q Hq. by apply broadcast_unregistered.
  - unfold broadcast. by rewrite put_all_clients.
  - intros N. destruct (run_get_events ch N) as (Hs & _ & Hh).
    set (wN := run (replicate N GetEvents) (init_world ch)) in *.
    assert (HwfN : wf wN) by apply reachable_wf.
    split_and!.
    + by rewrite Hs, length_seq.
    + apply HwfN.
    + intros q. destruct (decide (q < N)) as [Hq|Hq].
      * assert (Hin : q ∈ sse_clients wN).
        { rewrite Hs. apply list_elem_of_In, in_seq. lia. }
        destruct (broadcast_registered payload wN q HwfN Hin) as [-> _].
        unfold pending. by rewrite (Hh q Hin).
      * assert (Hout : q ∉ sse_clients wN).
        { rewrite Hs. intros Hin%list_elem_of_In%in_seq. lia. }
        unfold pending. rewrite broadcast_unregistered by done.
        destruct (heap wN !! q) as [c|] eqn:Hc; [|done].
        assert (q < next_ref wN) by (apply HwfN; eauto).
        destruct (run_get_events ch N) as (_ & Hn & _).
        fold wN in Hn. lia.
  - intros Hempty.
    assert (Hb : broadcast payload w = emit (Dumps payload) w).
    { unfold broadcast, put_all. simpl. by rewrite Hempty. }
    by rewrite Hb.
  - unfold received. simpl. by rewrite lookup_insert_eq.
  - intros tr2 Hq.
    set (w2 := fst (stream_events (broadcast payload w))) in *.
    set (queue := snd (stream_events (broadcast payload w))) in *.
    assert (Hwf2 : wf w2) by (apply stream_events_wf; by apply broadcast_wf).
    assert (Hq2 : queue ∈ sse_clients w2).
    { simpl. apply elem_of_app. right. apply list_elem_of_here. }
    rewrite (received_run tr2 queue w2 Hwf2 Hq2 Hq).
    unfold received, w2, queue. simpl. by rewrite lookup_insert_eq.
Qed.

Lemma broadcast_fan_out_empty :
  sse_clients (run [Startup] (init_world "updates")) = []
  /\ heap (broadcast (JStr "A") (run [Startup] (init_world "updates")))
     = heap (run [Startup] (init_world "updates"))
  /\ effects (broadcast (JStr "A") (run [Startup] (init_world "updates")))
     = effects (run [Startup] (init_world "updates")) ++ [Dumps (JStr "A")].
Proof.
  split; [reflexivity|].
  destruct (broadcast_fan_out "updates" [Startup] (JStr "A"))
    as (_ & _ & _ & _ & _ & _ & _ & Hempty & _).
  exact (Hempty eq_refl).
Defined.

(** C8.  A queue that is registered before and after a trace has received,
    over the trace, exactly the payloads produced along it and in production
    order, whatever else happens in between (other connections opening and
    closing, its own generator consuming); what its generator has yielded is
    a prefix of that sequence.  In particular upstream message [a], then
    command [pp], then upstream message [b] arrive as [a], [pp], [b]. *)
Theorem fifo_per_queue ch tr0 tr q :
  q ∈ sse_clients (run tr0 (init_world ch)) ->
  q ∈ sse_clients (run tr (run tr0 (init_world ch))) ->
  received q (run tr (run tr0 (init_world ch)))
  = received q (run tr0 (init_world ch))
      ++ production tr (run tr0 (init_world ch))
  /\ (forall a b,
        listener (run tr0 (init_world ch)) = Listening ->
        tr = [Upstream (mkEntry "message" a); PutWebcontrol "pp";
              Upstream (mkEntry "message" b)] ->
        received q (run tr (run tr0 (init_world ch)))
        = received q (run tr0 (init_world ch))
            ++ [a; json_dumps (webcontrol_payload "pp"); b]).
Proof.
  intros Hq Hend. set (w := run tr0 (init_world ch)) in *.
  assert (Hwf : wf w) by apply reachable_wf.
  assert (Hrun := received_run tr q w Hwf Hq Hend).
  split; [done|].
  intros a b Hl ->. rewrite Hrun. f_equal.
  assert (Hpp : "pp" ∈ valid_commands)
    by (apply valid_commands_spec; by left).
  assert (Hl1 : listener (step (Upstream (mkEntry "message" a)) w)
                = Listening).
  { simpl. rewrite Hl. unfold on_message. simpl.
    by rewrite put_all_listener. }
  assert (Hl2 : listener (step (PutWebcontrol "pp")
                            (step (Upstream (mkEntry "message" a)) w))
                = Listening).
  { rewrite <- Hl1. generalize (step (Upstream (mkEntry "message" a)) w).
    intros w1. simpl. unfold send_webcontrol_command.
    rewrite decide_False by tauto. simpl.
    destruct (broadcast_frame (webcontrol_payload "pp") w1) as [Hf _].
    unfold webcontrol_payload in Hf. by rewrite Hf. }
  cbn [production produced entry_type entry_data]. rewrite Hl, Hl2.
  rewrite !decide_True by done. done.
Qed.

Lemma fifo_A_pp_B :
  (1 ∈ sse_clients (run [Startup; GetEvents; GetEvents]
                      (init_world "updates")))
  /\ (1 ∈ sse_clients
            (run [Upstream (mkEntry "message" "A"); PutWebcontrol "pp";
                  Upstream (mkEntry "message" "B")]
               (run [Startup; GetEvents; GetEvents] (init_world "updates"))))
  /\ listener (run [Startup; GetEvents; GetEvents] (init_world "updates"))
     = Listening
  /\ received 1
       (run [Upstream (mkEntry "message" "A"); PutWebcontrol "pp";
             Upstream (mkEntry "message" "B")]
          (run [Startup; GetEvents; GetEvents] (init_world "updates")))
     = received 1 (run [Startup; GetEvents; GetEvents] (init_world "updates"))
         ++ ["A"; json_dumps (webcontrol_payload "pp"); "B"].
Proof.
  assert (H0 : 1 ∈ sse_clients (run [Startup; GetEvents; GetEvents]
                                  (init_world "updates")))
    by (vm_compute; apply list_elem_of_further, list_elem_of_here).
  assert (H1 : 1 ∈ sse_clients
                     (run [Upstream (mkEntry "message" "A");
                           PutWebcontrol "pp";
                           Upstream (mkEntry "message" "B")]
                        (run [Startup; GetEvents; GetEvents]
                           (init_world "updates"))))
    by (vm_compute; apply list_elem_of_further, list_elem_of_here).
  split; [exact H0|]. split; [exact H1|]. split; [reflexivity|].
  destruct (fifo_per_queue "updates" [Startup; GetEvents; GetEvents]
              [Upstream (mkEntry "message" "A"); PutWebcontrol "pp";
               Upstream (mkEntry "message" "B")] 1 H0 H1) as [_ Hex].
  exact (Hex "A" "B" eq_refl eq_refl).
Defined.

(** ** Point queries *)

(** C10.  With a decoder that reads the text [{}] as the empty object,
    [GET /key/{KV_KEY}] answers 200 with the empty object for a key that is
    absent from the store, and [GET /key/Environment] answers 200 with an
    object of the three fields [AQI], [Moon] and [Weather], each of which is
    the empty object when its own key is absent and the decoded stored text
    otherwise. *)
Theorem absent_key_empty_object json_loads store KV_KEY :
  json_loads "{}" = Some (JObj []) ->
  (store !! KV_KEY = None ->
   get_current_state json_loads store KV_KEY
   = Some (mkJSONResponse 200 (JObj [])))
  /\ (forall aqi moon weather,
        field_value json_loads store "AQI" aqi ->
        field_value json_loads store "Moon" moon ->
        field_value json_loads store "Weather" weather ->
        get_current_environment json_loads store
        = Some (mkJSONResponse 200
                  (JObj [("AQI", aqi); ("Moon", moon);
                         ("Weather", weather)]))).
Proof.
  intros Hempty. split.
  - intros Habs. unfold get_current_state. rewrite Habs. simpl.
    by rewrite Hempty.
  - intros aqi moon weather Ha Hm Hw.
    assert (Hfield : forall key v,
               field_value json_loads store key v ->
               json_loads (py_or (store !! key) "{}") = Some v).
    { intros key v. unfold field_value.
      destruct (store !! key) as [s|]; [done|].
      intros ->. exact Hempty. }
    unfold get_current_environment.
    rewrite (Hfield _ _ Ha), (Hfield _ _ Hm), (Hfield _ _ Hw). done.
Qed.

Lemma absent_key_empty_object_moon :
  json_loads_literal "{}" = Some (JObj [])
  /\ ({["Moon" := "[]"]} : gmap string string) !! "Weather" = None
  /\ get_current_state json_loads_literal {["Moon" := "[]"]} "Weather"
     = Some (mkJSONResponse 200 (JObj []))
  /\ get_current_environment json_loads_literal {["Moon" := "[]"]}
     = Some (mkJSONResponse 200
               (JObj [("AQI", JObj []); ("Moon", JArr []);
                      ("Weather", JObj [])])).
Proof.
  split; [reflexivity|]. split; [reflexivity|].
  destruct (absent_key_empty_object json_loads_literal
              {["Moon" := "[]"]} "Weather" eq_refl) as [Hstate Henv].
  split; [exact (Hstate eq_refl)|].
  apply Henv; reflexivity.
Defined.

(** * Further properties of the code *)

(** ** Point queries *)

Lemma py_or_delete_empty (store : gmap string string) key k :
  store !! key = Some "" ->
  py_or (delete key store !! k) "{}" = py_or (store !! k) "{}".
Proof.
  intros Hk. destruct (decide (key = k)) as [<-|Hne].
  - by rewrite lookup_delete_eq, Hk.
  - by rewrite lookup_delete_ne.
Qed.

(** X1.  A key that holds the empty string is read like an absent key:
    deleting it changes the answer of neither handler, whatever the
    decoder. *)
Theorem empty_string_reads_as_absent json_loads store key KV_KEY :
  store !! key = Some "" ->
  get_current_state json_loads (delete key store) KV_KEY
  = get_current_state json_loads store KV_KEY
  /\ get_current_environment json_loads (delete key store)
     = get_current_environment json_loads store.
Proof.
  intros Hk. unfold get_current_state, get_current_environment.
  by rewrite !(py_or_delete_empty store key) by done.
Qed.

Lemma empty_string_reads_as_absent_weather :
  ({["Weather" := ""]} : gmap string string) !! "Weather" = Some ""
  /\ get_current_state json_loads_literal
       (delete "Weather" {["Weather" := ""]}) "Weather"
     = get_current_state json_loads_literal {["Weather" := ""]} "Weather"
  /\ get_current_state json_loads_literal {["Weather" := ""]} "Weather"
     = Some (mkJSONResponse 200 (JObj [])).
Proof.
  split; [reflexivity|]. split; [|reflexivity].
  apply (empty_string_reads_as_absent json_loads_literal
           {["Weather" := ""]} "Weather" "Weather").
  reflexivity.
Defined.



(** X3.  [GET /key/Environment] is the bundle of the three point queries
    [AQI], [Moon] and [Weather]: it answers 200 with their three contents
    under those names, in that order, when all three succeed, and it fails
    as a whole as soon as one of them fails. *)
Theorem get_current_environment_bundle json_loads store :
  get_current_environment json_loads store
  = (a ← get_current_state json_loads store "AQI";
     m ← get_current_state json_loads store "Moon";
     w ← get_current_state json_loads store "Weather";
     Some (mkJSONResponse 200
             (JObj [("AQI", content a); ("Moon", content m);
                    ("Weather", content w)])))
  /\ (get_current_environment json_loads store = None
      <-> get_current_state json_loads store "AQI" = None
          \/ get_current_state json_loads store "Moon" = None
          \/ get_current_state json_loads store "Weather" = None).
Proof.
  unfold get_current_environment, get_current_state.
  destruct (json_loads (py_or (store !! "AQI") "{}")) as [a|];
    destruct (json_loads (py_or (store !! "Moon") "{}")) as [m|];
    destruct (json_loads (py_or (store !! "Weather") "{}")) as [w|];
    simpl; split; try done; try tauto.
  split; [done|]. intros [H|[H|H]]; discriminate H.
Qed.

(** ** What a queue holds *)

Lemma puts_on_app q es1 es2 :
  puts_on q (es1 ++ es2) = puts_on q es1 ++ puts_on q es2.
Proof. apply omap_app. Qed.

Lemma puts_on_puts q msg (l : list qref) :
  NoDup l ->
  puts_on q (map (fun q' => Put q' msg) l)
  = if decide (q ∈ l) then [msg] else [].
Proof.
  induction l as [|x l IH]; intros Hnd.
  - by rewrite decide_False by apply not_elem_of_nil.
  - apply NoDup_cons in Hnd as [Hx Hnd]. specialize (IH Hnd).
    change (puts_on q (map (fun q' => Put q' msg) (x :: l)))
      with (match (if decide (x = q) then Some msg else None) with
            | Some y => y :: puts_on q (map (fun q' => Put q' msg) l)
            | None => puts_on q (map (fun q' => Put q' msg) l)
            end).
    rewrite IH. destruct (decide (x = q)) as [->|Hne].
    + rewrite (decide_False (P := q ∈ l)) by done.
      by rewrite decide_True by (by left).
    + destruct (decide (q ∈ l)) as [Hq|Hq].
      * by rewrite decide_True by (by right).
      * rewrite decide_False; [done|].
        intros [->|?]%elem_of_cons; done.
Qed.

Lemma step_puts_on a q w :
  wf w ->
  puts_on q (effects (step a w))
  = puts_on q (effects w)
      ++ if decide (q ∈ sse_clients w) then produced a w else [].
Proof.
  intros Hwf.
  assert (Hnil : (if decide (q ∈ sse_clients w) then @nil string else [])
                 = []) by (by case_decide).
  assert (Hput : forall msg,
             puts_on q (effects (put_all msg w))
             = puts_on q (effects w)
                 ++ if decide (q ∈ sse_clients w) then [msg] else []).
  { intros msg. rewrite put_all_effects, puts_on_app.
    by rewrite puts_on_puts by apply Hwf. }
  destruct a as [| |m| | |command|q' i]; simpl.
  - rewrite Hnil, app_nil_r. destruct (listener w); try done.
    simpl. by rewrite puts_on_app, app_nil_r.
  - rewrite Hnil, app_nil_r. by destruct (listener w).
  - destruct (listener w); rewrite ?Hnil, ?app_nil_r; try done.
    unfold on_message.
    destruct (decide (entry_type m = "message")); [apply Hput|].
    by rewrite Hnil, app_nil_r.
  - rewrite Hnil, app_nil_r. by destruct (listener w).
  - by rewrite Hnil, app_nil_r.
  - unfold send_webcontrol_command.
    destruct (decide (command ∉ valid_commands)) as [Hv|Hv%dec_stable].
    + rewrite (decide_False (P := command ∈ valid_commands)) by done.
      by rewrite Hnil, app_nil_r.
    + rewrite (decide_True (P := command ∈ valid_commands)) by done. simpl.
      rewrite broadcast_effects.
      change (Dumps ?p :: ?l) with ([Dumps p] ++ l).
      rewrite !puts_on_app, puts_on_puts by apply Hwf. done.
  - rewrite Hnil, app_nil_r.
    by destruct (event_generator_frame q' i w) as [_ ->].
Qed.

Lemma step_received_any a q w :
  wf w ->
  received q (step a w)
  = received q w
      ++ if decide (q ∈ sse_clients w) then produced a w else [].
Proof.
  intros Hwf.
  assert (Hnil : (if decide (q ∈ sse_clients w) then @nil string else [])
                 = []) by (by case_decide).
  assert (Hput : forall msg w0,
             heap w0 = heap w -> sse_clients w0 = sse_clients w ->
             received q (put_all msg w0)
             = received q w
                 ++ if decide (q ∈ sse_clients w) then [msg] else []).
  { intros msg w0 Hh Hs. unfold received, put_all.
    rewrite put_each_lookup by (rewrite Hs; apply Hwf). rewrite Hs, Hh.
    destruct (decide (q ∈ sse_clients w)) as [Hq|Hq].
    - apply Hwf in Hq as (c & -> & _). simpl. by rewrite app_assoc.
    - by rewrite app_nil_r. }
  destruct a as [| |m| | |command|q' i]; simpl.
  - rewrite Hnil, app_nil_r. by destruct (listener w).
  - rewrite Hnil, app_nil_r. by destruct (listener w).
  - destruct (listener w); rewrite ?Hnil, ?app_nil_r; try done.
    unfold on_message.
    destruct (decide (entry_type m = "message")); [by apply Hput|].
    by rewrite Hnil, app_nil_r.
  - rewrite Hnil, app_nil_r. by destruct (listener w).
  - rewrite Hnil, app_nil_r. unfold received. simpl.
    destruct (decide (q = next_ref w)) as [->|Hne].
    + rewrite lookup_insert_eq. simpl.
      destruct (heap w !! next_ref w) as [c|] eqn:Hc; [|done].
      assert (next_ref w < next_ref w) by (apply (wf_fresh w Hwf); eauto).
      lia.
    + by rewrite lookup_insert_ne.
  - unfold send_webcontrol_command.
    destruct (decide (command ∉ valid_commands)) as [Hv|Hv%dec_stable].
    + rewrite (decide_False (P := command ∈ valid_commands)) by done.
      by rewrite Hnil, app_nil_r.
    + rewrite (decide_True (P := command ∈ valid_commands)) by done. simpl. by apply Hput.
  - rewrite Hnil, app_nil_r. destruct (decide (q' = q)) as [->|Hne].
    2:{ unfold received. by rewrite event_generator_lookup_ne. }
    unfold received, event_generator.
    destruct (heap w !! q) as [c|] eqn:Hc; [|by rewrite Hc].
    unfold finally_clause, remove_client.
    destruct (phase c) eqn:Hp, i as [[]| | |e]; simpl;
      rewrite ?Hc; try done;
      try (destruct (list_remove q (sse_clients w)); simpl;
           rewrite lookup_alter_eq, Hc; simpl; done);
      try (rewrite lookup_alter_eq, Hc; simpl; done).
    destruct (items c) as [|msg rest] eqn:Hi; simpl.
    + by rewrite Hc, Hi.
    + rewrite lookup_insert_eq. simpl.
      rewrite map_app. simpl. by rewrite <- app_assoc.
Qed.

(** X5.  Nothing is lost, doubled or made up between [put] and [yield]: in
    every reachable state, what a connection's generator has yielded,
    followed by what still waits in its queue, is exactly the sequence of
    messages put on that queue, in the order of the puts. *)
Theorem received_is_what_was_put ch tr q :
  received q (run tr (init_world ch))
  = puts_on q (effects (run tr (init_world ch))).
Proof.
  induction tr as [|a tr IH] using rev_ind; [done|].
  rewrite run_app. simpl.
  rewrite step_received_any, step_puts_on by apply reachable_wf.
  by rewrite IH.
Qed.

(** ** A finished session *)

Lemma step_closed_frozen a q w :
  wf w -> closed q w -> heap (step a w) !! q = heap w !! q.
Proof.
  intros Hwf Hcl.
  assert (Hq : q ∉ sse_clients w) by (by apply closed_not_registered).
  destruct Hcl as (c & Hc & Hl).
  destruct a as [| |m| | |command|q' i]; simpl.
  - by destruct (listener w).
  - by destruct (listener w).
  - destruct (listener w); try done.
    unfold on_message. case_decide; [|done].
    by apply put_all_unregistered.
  - by destruct (listener w).
  - rewrite lookup_insert_ne; [done|].
    assert (q < next_ref w) by (apply (wf_fresh w Hwf); eauto). lia.
  - unfold send_webcontrol_command. case_decide; [done|]. simpl.
    by apply broadcast_unregistered.
  - destruct (decide (q' = q)) as [->|Hne];
      [|by apply event_generator_lookup_ne].
    unfold event_generator. rewrite Hc.
    unfold unreleased in Hl. destruct (phase c); try tauto; done.
Qed.

(** X6.  Once the generator of a connection has left through its [finally]
    clause, its queue is frozen: whatever happens afterwards, nothing more
    is put on it and nothing more is yielded from it, so the messages still
    waiting when the session ended are never delivered. *)
Theorem closed_queue_is_frozen ch tr tr' q :
  closed q (run tr (init_world ch)) ->
  heap (run tr' (run tr (init_world ch))) !! q
  = heap (run tr (init_world ch)) !! q.
Proof.
  assert (Hwf : wf (run tr (init_world ch))) by apply reachable_wf.
  revert Hwf. generalize (run tr (init_world ch)). intros w. revert w.
  induction tr' as [|a tr' IH]; intros w Hwf Hcl; [done|].
  rewrite run_cons, IH.
  - by apply step_closed_frozen.
  - by apply step_wf.
  - by apply step_closed.
Qed.

Lemma closed_queue_is_frozen_pending :
  closed 0 (run [Startup; GetEvents; Session 0 Next;
                 Upstream (mkEntry "message" "A");
                 Session 0 (Throw CancelledError)] (init_world "updates"))
  /\ pending 0
       (run [Upstream (mkEntry "message" "B"); PutWebcontrol "pp";
             Session 0 Item]
          (run [Startup; GetEvents; Session 0 Next;
                Upstream (mkEntry "message" "A");
                Session 0 (Throw CancelledError)] (init_world "updates")))
     = ["A"].
Proof.
  assert (Hcl : closed 0
                  (run [Startup; GetEvents; Session 0 Next;
                        Upstream (mkEntry "message" "A");
                        Session 0 (Throw CancelledError)]
                     (init_world "updates"))).
  { exists {| items := ["A"]; phase := Closed (Some CancelledError);
               yielded := [] |}.
    split; [vm_compute; reflexivity|]. unfold unreleased. simpl. tauto. }
  split; [exact Hcl|]. unfold pending.
  rewrite (closed_queue_is_frozen "updates"
             [Startup; GetEvents; Session 0 Next;
              Upstream (mkEntry "message" "A");
              Session 0 (Throw CancelledError)]
             [Upstream (mkEntry "message" "B"); PutWebcontrol "pp";
              Session 0 Item] 0 Hcl).
  vm_compute. reflexivity.
Defined.

(** ** The order of the registry *)

Lemma step_clients a w :
  (sse_clients (step a w) = sse_clients w
   /\ next_ref (step a w) = next_ref w)
  \/ (sse_clients (step a w) = sse_clients w ++ [next_ref w]
      /\ next_ref (step a w) = S (next_ref w))
  \/ (exists q l1 l2,
        sse_clients w = l1 ++ q :: l2
        /\ sse_clients (step a w) = l1 ++ l2
        /\ next_ref (step a w) = next_ref w).
Proof.
  destruct a as [| |m| | |command|q i]; simpl.
  - left. by destruct (listener w).
  - left. by destruct (listener w).
  - left. destruct (listener w); try done.
    unfold on_message. case_decide; [|done].
    by destruct (put_each_frame (entry_data m) (sse_clients w) w)
      as (_ & ? & ? & _).
  - left. by destruct (listener w).
  - right. by left.
  - left. unfold send_webcontrol_command. case_decide; [done|]. simpl.
    unfold broadcast, put_all.
    by destruct (put_each_frame
                   (json_dumps (webcontrol_payload command))
                   (sse_clients (emit (Dumps (webcontrol_payload command)) w))
                   (emit (Dumps (webcontrol_payload command)) w))
      as (_ & ? & ? & _).
  - unfold event_generator. destruct (heap w !! q) as [c|]; [|by left].
    assert (Hfin : forall pending,
               (sse_clients (finally_clause q pending w) = sse_clients w
                /\ next_ref (finally_clause q pending w) = next_ref w)
               \/ (sse_clients (finally_clause q pending w)
                   = sse_clients w ++ [next_ref w]
                   /\ next_ref (finally_clause q pending w)
                      = S (next_ref w))
               \/ (exists q0 l1 l2,
                     sse_clients w = l1 ++ q0 :: l2
                     /\ sse_clients (finally_clause q pending w) = l1 ++ l2
                     /\ next_ref (finally_clause q pending w) = next_ref w)).
    { intros pending. unfold finally_clause, remove_client.
      destruct (list_remove q (sse_clients w)) as [l'|] eqn:E;
        [|by left].
      right. right.
      destruct (decide (q ∈ sse_clients w)) as [Hq|Hq];
        [|apply list_remove_absent in Hq; congruence].
      apply list_remove_present in Hq as (l1 & l2 & Hl & _ & Hrm).
      exists q, l1, l2. simpl. split_and!; [done| |done]. congruence. }
    destruct (phase c), i as [[]| | |e]; try (by left); try apply Hfin.
    left. by destruct (items c).
Qed.

(** X7.  In every reachable state the registry lists the open connections
    in the order in which they connected: queue references are handed out
    in increasing order and the registry is strictly increasing, so a
    fan-out serves older connections first. *)
Theorem registry_in_connection_order ch tr :
  StronglySorted lt (sse_clients (run tr (init_world ch)))
  /\ Forall (fun q => q < next_ref (run tr (init_world ch)))
       (sse_clients (run tr (init_world ch))).
Proof.
  induction tr as [|a tr IH] using rev_ind.
  - split; constructor.
  - rewrite run_app. simpl. set (w := run tr (init_world ch)) in *.
    destruct IH as [Hs Hb].
    destruct (step_clients a w)
      as [[-> ->]|[[-> ->]|(q & l1 & l2 & Hl & -> & ->)]].
    + done.
    + split.
      * apply StronglySorted_app. split_and!.
        -- intros x y Hx Hy. apply list_elem_of_singleton in Hy as ->.
           by apply (proj1 (Forall_forall _ _) Hb).
        -- done.
        -- repeat constructor.
      * apply Forall_app. split.
        -- eapply Forall_impl; [exact Hb|]. simpl. lia.
        -- repeat constructor.
    + rewrite Hl in Hs, Hb. split.
      * apply StronglySorted_app in Hs as (H12 & H1 & H2).
        apply StronglySorted_cons in H2 as [_ H2].
        apply StronglySorted_app. split_and!; [|done|done].
        intros x y Hx Hy. apply H12; [done|]. by right.
      * apply Forall_app in Hb as [Hb1 Hb2].
        apply Forall_cons in Hb2 as [_ Hb2]. by apply Forall_app.
Qed.

Lemma filter_ne_absent (x : qref) (l : list qref) :
  x ∉ l -> filter (fun y => y ≠ x) l = l.
Proof.
  induction l as [|y l IH]; intros Hx; [done|].
  apply not_elem_of_cons in Hx as [Hne Hx].
  rewrite filter_cons_True by congruence. by rewrite IH.
Qed.

Lemma list_remove_filter (x : qref) (l l' : list qref) :
  NoDup l -> list_remove x l = Some l' -> l' = filter (fun y => y ≠ x) l.
Proof.
  revert l'. induction l as [|y l IH]; intros l' Hnd Hrm; [done|].
  apply NoDup_cons in Hnd as [Hy Hnd]. simpl in Hrm.
  destruct (decide (y = x)) as [->|Hne].
  - injection Hrm as <-. rewrite filter_cons_False by (intros H; by apply H).
    symmetry. by apply filter_ne_absent.
  - destruct (list_remove x l) as [r|] eqn:E; [|done].
    injection Hrm as <-. rewrite filter_cons_True by done.
    f_equal. by apply IH.
Qed.

(** X8.  When a generator that has begun is left, by an exception or
    cancellation at any of its suspension points or by the disconnect probe
    answering true, the registry afterwards is the registry before without
    that queue: the other connections keep their places.  Every other input
    leaves the registry as it is, and so does any input to a generator that
    has not begun or has finished. *)
Theorem session_exit_filters_registry ch tr q c i :
  heap (run tr (init_world ch)) !! q = Some c ->
  sse_clients (step (Session q i) (run tr (init_world ch)))
  = match phase c, i with
    | (AtProbe | AtGet | AtYield), Throw _
    | AtProbe, Disconnected true =>
        filter (fun y => y ≠ q) (sse_clients (run tr (init_world ch)))
    | _, _ => sse_clients (run tr (init_world ch))
    end.
Proof.
  intros Hc. set (w := run tr (init_world ch)) in *.
  assert (Hwf : wf w) by apply reachable_wf.
  assert (Hfin : forall pending,
             unreleased c ->
             sse_clients (finally_clause q pending w)
             = filter (fun y => y ≠ q) (sse_clients w)).
  { intros pending Hl.
    destruct (remove_client_unreleased w q c Hwf Hc Hl)
      as (l' & Hrm & _ & _).
    unfold finally_clause. rewrite Hrm. simpl.
    unfold remove_client in Hrm.
    destruct (list_remove q (sse_clients w)) as [l0|] eqn:E; [|done].
    injection Hrm as <-. apply list_remove_filter; [apply Hwf|done]. }
  simpl. unfold event_generator. rewrite Hc. unfold unreleased in Hfin.
  destruct (phase c), i as [[]| | |e]; try done; try (by apply Hfin).
  by destruct (items c).
Qed.

Lemma session_exit_filters_registry_middle :
  heap (run [GetEvents; GetEvents; GetEvents; Session 1 Next;
             Session 1 (Disconnected false)] (init_world "updates")) !! 1
  = Some (with_phase AtGet new_client)
  /\ sse_clients
       (step (Session 1 (Throw CancelledError))
          (run [GetEvents; GetEvents; GetEvents; Session 1 Next;
                Session 1 (Disconnected false)] (init_world "updates")))
     = [0; 2].
Proof.
  assert (Hc : heap (run [GetEvents; GetEvents; GetEvents; Session 1 Next;
                          Session 1 (Disconnected false)]
                       (init_world "updates")) !! 1
               = Some (with_phase AtGet new_client))
    by (vm_compute; reflexivity).
  split; [exact Hc|].
  rewrite (session_exit_filters_registry "updates"
             [GetEvents; GetEvents; GetEvents; Session 1 Next;
              Session 1 (Disconnected false)] 1
             (with_phase AtGet new_client) (Throw CancelledError) Hc).
  vm_compute. reflexivity.
Defined.

(** ** A session that waits *)

Lemma silent_producer a w :
  produced a w = [] ->
  match a with
  | Upstream _ | PutWebcontrol _ => step a w = w
  | _ => True
  end.
Proof.
  destruct a as [| |m| | |command|q i]; try done; simpl.
  - destruct (listener w); try done.
    unfold on_message. by case_decide.
  - unfold send_webcontrol_command.
    destruct (decide (command ∈ valid_commands)) as [Hv|Hv]; [done|].
    by rewrite decide_True.
Qed.

Lemma step_idle a q w :
  wf w -> idle q w -> produced a w = [] ->
  (forall e, a ≠ Session q (Throw e)) ->
  idle q (step a w).
Proof.
  intros Hwf (c & Hc & Hp & Hi) Hprod Hthrow.
  assert (Hsil := silent_producer a w Hprod).
  destruct a as [| |m| | |command|q' i]; try (rewrite Hsil; by exists c).
  - simpl. destruct (listener w); by exists c.
  - simpl. destruct (listener w); by exists c.
  - simpl. destruct (listener w); by exists c.
  - exists c. split; [|done]. simpl. rewrite lookup_insert_ne; [done|].
    assert (q < next_ref w) by (apply (wf_fresh w Hwf); eauto). lia.
  - destruct (decide (q' = q)) as [->|Hne].
    + simpl. unfold event_generator. rewrite Hc, Hp.
      destruct i as [[]| | |e]; try (by exists c).
      * rewrite Hi. by exists c.
      * by destruct (Hthrow e).
    + exists c. split; [|done]. simpl.
      by rewrite event_generator_lookup_ne.
Qed.

(** X9.  The code asks the transport whether the client has gone only
    between two messages.  A session that waits in [queue.get()] on an
    empty queue therefore stays registered, still waiting, over any trace
    along which nothing is produced and nothing is raised into it, whatever
    [request.is_disconnected()] would answer in the meantime. *)
Theorem idle_session_stays_registered ch tr0 tr q :
  idle q (run tr0 (init_world ch)) ->
  production tr (run tr0 (init_world ch)) = [] ->
  (forall e, Session q (Throw e) ∉ tr) ->
  idle q (run tr (run tr0 (init_world ch)))
  /\ q ∈ sse_clients (run tr (run tr0 (init_world ch))).
Proof.
  assert (Hwf : wf (run tr0 (init_world ch))) by apply reachable_wf.
  revert Hwf. generalize (run tr0 (init_world ch)). intros w. revert w.
  assert (Hreg : forall w, wf w -> idle q w -> q ∈ sse_clients w).
  { intros w Hwf (c & Hc & Hp & _). apply Hwf. exists c. split; [done|].
    unfold unreleased. by rewrite Hp. }
  induction tr as [|a tr IH]; intros w Hwf Hidle Hprod Hthrow.
  - split; [done|by apply Hreg].
  - simpl in Hprod. apply app_eq_nil in Hprod as [Ha Htr].
    rewrite run_cons. apply IH.
    + by apply step_wf.
    + apply step_idle; [done..|].
      intros e ->. apply (Hthrow e). by left.
    + done.
    + intros e He. apply (Hthrow e). by right.
Qed.

Lemma idle_session_stays_registered_probe :
  idle 0 (run [Startup; GetEvents; Session 0 Next;
               Session 0 (Disconnected false)] (init_world "updates"))
  /\ 0 ∈ sse_clients
           (run [Session 0 (Disconnected true); PutWebcontrol "stop";
                 Upstream (mkEntry "subscribe" "1"); Session 0 Item]
              (run [Startup; GetEvents; Session 0 Next;
                    Session 0 (Disconnected false)] (init_world "updates"))).
Proof.
  assert (Hidle : idle 0 (run [Startup; GetEvents; Session 0 Next;
                               Session 0 (Disconnected false)]
                            (init_world "updates"))).
  { exists (with_phase AtGet new_client).
    split; [vm_compute; reflexivity|]. split; reflexivity. }
  split; [exact Hidle|].
  apply (idle_session_stays_registered "updates"
           [Startup; GetEvents; Session 0 Next;
            Session 0 (Disconnected false)]
           [Session 0 (Disconnected true); PutWebcontrol "stop";
            Upstream (mkEntry "subscribe" "1"); Session 0 Item] 0 Hidle).
  - vm_compute. reflexivity.
  - intros e He. repeat (apply elem_of_cons in He as [He|He];
                          [discriminate He|]).
    by apply elem_of_nil in He.
Defined.

(** ** The text of a broadcast *)

Lemma string_forallb_app f s t :
  string_forallb f (s +:+ t) = string_forallb f s && string_forallb f t.
Proof.
  induction s as [|c s IH]; [done|]. simpl. by rewrite IH, andb_assoc.
Qed.

Lemma escape_char_printable c :
  string_forallb printable (escape_char c) = true.
Proof.
  destruct c as [[] [] [] [] [] [] [] []]; vm_compute; reflexivity.
Qed.

Lemma escape_string_printable s :
  string_forallb printable (escape_string s) = true.
Proof.
  induction s as [|c s IH]; [done|]. simpl.
  by rewrite string_forallb_app, escape_char_printable, IH.
Qed.

Lemma encode_basestring_ascii_printable s :
  string_forallb printable (encode_basestring_ascii s) = true.
Proof.
  unfold encode_basestring_ascii.
  by rewrite !string_forallb_app, escape_string_printable.
Qed.

Lemma join_printable sep parts :
  string_forallb printable sep = true ->
  Forall (fun p => string_forallb printable p = true) parts ->
  string_forallb printable (join sep parts) = true.
Proof.
  intros Hsep. induction 1 as [|p parts Hp Hparts IH]; [done|].
  destruct parts as [|p' parts]; [done|].
  change (join sep (p :: p' :: parts))
    with (p +:+ sep +:+ join sep (p' :: parts)).
  by rewrite !string_forallb_app, Hp, Hsep, IH.
Qed.

(** X10.  The text [json.dumps] makes of a payload consists of printable
    ASCII characters only: no line break, no control character and no
    character above U+007E, whatever the strings in the payload, so the
    text [broadcast] puts on the queues is always one line. *)
Theorem json_dumps_printable v :
  string_forallb printable (json_dumps v) = true.
Proof.
  revert v. fix IH 1. intros [| [] |s|xs|kvs]; try reflexivity.
  - apply encode_basestring_ascii_printable.
  - change (json_dumps (JArr xs))
      with ("[" +:+ join ", " (map json_dumps xs) +:+ "]").
    rewrite !string_forallb_app. simpl. rewrite andb_true_r.
    apply join_printable; [done|].
    induction xs as [|x xs IHxs]; constructor; [apply IH|apply IHxs].
  - change (json_dumps (JObj kvs))
      with ("{" +:+ join ", "
                     (map (fun kv => encode_basestring_ascii (fst kv)
                                     +:+ ": " +:+ json_dumps (snd kv)) kvs)
                +:+ "}").
    rewrite !string_forallb_app. simpl. rewrite andb_true_r.
    apply join_printable; [done|].
    induction kvs as [|[k x] kvs IHkvs]; constructor; [|apply IHkvs].
    cbn [fst snd].
    rewrite !string_forallb_app, encode_basestring_ascii_printable.
    simpl. apply IH.
Qed.

Lemma append_assoc_string (s t u : string) :
  (s +:+ t) +:+ u = s +:+ (t +:+ u).
Proof.
  induction s as [|c s IH]; [done|].
  change (String c ((s +:+ t) +:+ u) = String c (s +:+ (t +:+ u))).
  by f_equal.
Qed.

Lemma escape_char_plain c :
  plain c = true -> escape_char c = String c EmptyString.
Proof.
  destruct c as [[] [] [] [] [] [] [] []]; vm_compute;
    first [reflexivity | discriminate].
Qed.

Lemma escape_string_plain s :
  string_forallb plain s = true -> escape_string s = s.
Proof.
  induction s as [|c s IH]; [done|]. simpl.
  intros [Hc Hs]%andb_true_iff. by rewrite escape_char_plain, IH.
Qed.

(** X11.  For a command made of printable ASCII characters other than the
    quote and the backslash, such as the four commands of the vocabulary,
    the text put on the queues is exactly
    [{"type": "webcontrol", "command": "<command>"}], with one space after
    each colon and after the comma. *)
Theorem webcontrol_payload_text command :
  string_forallb plain command = true ->
  json_dumps (webcontrol_payload command) = webcontrol_text command.
Proof.
  intros Hplain. unfold webcontrol_payload, webcontrol_text.
  unfold json_dumps, join, map, fst, snd, encode_basestring_ascii.
  rewrite (escape_string_plain command Hplain).
  change (escape_string "type") with "type".
  change (escape_string "webcontrol") with "webcontrol".
  change (escape_string "command") with "command".
  by rewrite !append_assoc_string.
Qed.

Lemma webcontrol_payload_text_vocabulary :
  string_forallb plain "pp" = true
  /\ json_dumps (webcontrol_payload "pp") = webcontrol_text "pp"
  /\ json_dumps (webcontrol_payload "fwd") = webcontrol_text "fwd"
  /\ json_dumps (webcontrol_payload "rew") = webcontrol_text "rew"
  /\ json_dumps (webcontrol_payload "out") = webcontrol_text "out".
Proof.
  split; [reflexivity|].
  split_and!; apply webcontrol_payload_text; reflexivity.
Defined.

(** ** What the transport is handed *)

Lemma step_yielded a q w c' :
  wf w -> heap (step a w) !! q = Some c' ->
  yielded c' = []
  \/ exists c, heap w !! q = Some c
               /\ (yielded c' = yielded c
                   \/ exists msg, yielded c' = yielded c ++ [mkEvent "update" msg]).
Proof.
  intros Hwf.
  assert (Hsame : heap w !! q = Some c' ->
                  yielded c' = []
                  \/ exists c, heap w !! q = Some c
                               /\ (yielded c' = yielded c
                                   \/ exists msg, yielded c'
                                        = yielded c ++ [mkEvent "update" msg])).
  { intros Hc. right. exists c'. split; [done|by left]. }
  assert (Hput : forall msg w0, heap w0 = heap w ->
                   sse_clients w0 = sse_clients w ->
                   heap (put_all msg w0) !! q = Some c' ->
                   yielded c' = []
                   \/ exists c, heap w !! q = Some c
                        /\ (yielded c' = yielded c
                            \/ exists msg', yielded c'
                                 = yielded c ++ [mkEvent "update" msg'])).
  { intros msg w0 Hh Hs. unfold put_all.
    rewrite put_each_lookup by (rewrite Hs; apply Hwf). rewrite Hs, Hh.
    case_decide; [|done].
    destruct (heap w !! q) as [c|]; [|done]. simpl. intros [= <-].
    right. exists c. split; [done|by left]. }
  destruct a as [| |m| | |command|q' i]; simpl.
  - by destruct (listener w).
  - by destruct (listener w).
  - destruct (listener w); try done.
    unfold on_message. case_decide; [by apply Hput|done].
  - by destruct (listener w).
  - destruct (decide (q = next_ref w)) as [->|Hne].
    + rewrite lookup_insert_eq. intros [= <-]. by left.
    + by rewrite lookup_insert_ne.
  - unfold send_webcontrol_command. case_decide; [done|]. simpl.
    by apply Hput.
  - destruct (decide (q' = q)) as [->|Hne];
      [|by rewrite event_generator_lookup_ne].
    unfold event_generator.
    destruct (heap w !! q) as [c|] eqn:Hc; [|by rewrite Hc].
    assert (Hph : forall p w0, heap w0 = heap w ->
                    heap (set_phase q p w0) !! q = Some c' ->
                    yielded c' = []
                    \/ exists c0, Some c = Some c0
                         /\ (yielded c' = yielded c0
                             \/ exists msg, yielded c'
                                  = yielded c0 ++ [mkEvent "update" msg])).
    { intros p w0 Hh. simpl. rewrite Hh, lookup_alter_eq, Hc. simpl.
      intros [= <-]. right. exists c. split; [done|by left]. }
    unfold finally_clause, remove_client.
    destruct (phase c), i as [[]| | |e]; rewrite ?Hc; try done;
      try (destruct (list_remove q (sse_clients w)); by apply Hph);
      try (by apply Hph).
    destruct (items c) as [|msg rest]; [by rewrite Hc|].
    simpl. rewrite lookup_insert_eq. intros [= <-]. simpl.
    right. exists c. split; [done|]. right. by exists msg.
Qed.

Lemma yielded_named_update ch tr q c :
  heap (run tr (init_world ch)) !! q = Some c ->
  Forall (fun ev => event ev = "update") (yielded c).
Proof.
  revert q c. induction tr as [|a tr IH] using rev_ind; intros q c.
  - simpl. by rewrite lookup_empty.
  - rewrite run_app. simpl. intros Hc.
    apply step_yielded in Hc as [->|(c0 & Hc0 & [->|[msg ->]])];
      [constructor|by eapply IH| |apply reachable_wf].
    apply Forall_app. split; [by eapply IH|]. by repeat constructor.
Qed.

Lemma received_puts_on ch tr q :
  received q (run tr (init_world ch))
  = puts_on q (effects (run tr (init_world ch))).
Proof.
  induction tr as [|a tr IH] using rev_ind; [done|].
  rewrite run_app. simpl.
  rewrite step_received_any, step_puts_on by apply reachable_wf.
  by rewrite IH.
Qed.

(** X12.  What a connection's generator has handed to the transport is a
    prefix of the messages put on its queue, each wrapped as
    [{"event": "update", "data": msg}], and what waits in the queue is the
    rest of them: events go out in the order of the puts, one per
    message. *)
Theorem yielded_is_prefix_of_puts ch tr q c :
  heap (run tr (init_world ch)) !! q = Some c ->
  yielded c
  = map (mkEvent "update")
        (take (length (yielded c))
              (puts_on q (effects (run tr (init_world ch)))))
  /\ items c
     = drop (length (yielded c))
            (puts_on q (effects (run tr (init_world ch)))).
Proof.
  intros Hc. rewrite <- received_puts_on. unfold received. rewrite Hc.
  assert (Htake : take (length (yielded c))
                    (map data (yielded c) ++ items c)
                  = map data (yielded c)).
  { rewrite <- (length_map data (yielded c)). apply take_app_length. }
  assert (Hdrop : drop (length (yielded c))
                    (map data (yielded c) ++ items c)
                  = items c).
  { rewrite <- (length_map data (yielded c)). apply drop_app_length. }
  rewrite Htake, Hdrop. clear Htake Hdrop.
  split; [|done].
  assert (Hn := yielded_named_update ch tr q c Hc).
  induction Hn as [|[ev d] l Hev _ IH]; [done|].
  simpl in *. subst ev. by rewrite <- IH.
Qed.

Lemma yielded_is_prefix_of_puts_one :
  heap (run [Startup; GetEvents; Upstream (mkEntry "message" "A");
             PutWebcontrol "pp"; Session 0 Next;
             Session 0 (Disconnected false); Session 0 Item]
          (init_world "updates")) !! 0
  = Some {| items := [webcontrol_text "pp"]; phase := AtYield;
            yielded := [mkEvent "update" "A"] |}
  /\ [mkEvent "update" "A"]
     = map (mkEvent "update")
         (take 1
            (puts_on 0
               (effects
                  (run [Startup; GetEvents; Upstream (mkEntry "message" "A");
                        PutWebcontrol "pp"; Session 0 Next;
                        Session 0 (Disconnected false); Session 0 Item]
                     (init_world "updates")))))
  /\ [webcontrol_text "pp"]
     = drop 1
         (puts_on 0
            (effects
               (run [Startup; GetEvents; Upstream (mkEntry "message" "A");
                     PutWebcontrol "pp"; Session 0 Next;
                     Session 0 (Disconnected false); Session 0 Item]
                  (init_world "updates")))).
Proof.
  assert (Hc : heap (run [Startup; GetEvents;
                          Upstream (mkEntry "message" "A");
                          PutWebcontrol "pp"; Session 0 Next;
                          Session 0 (Disconnected false); Session 0 Item]
                       (init_world "updates")) !! 0
               = Some {| items := [webcontrol_text "pp"]; phase := AtYield;
                         yielded := [mkEvent "update" "A"] |})
    by (vm_compute; reflexivity).
  split; [exact Hc|].
  exact (yielded_is_prefix_of_puts "updates" _ 0 _ Hc).
Defined.

(** ** Shutdown *)

Lemma step_listener_stopped a w :
  listener w = Crashed \/ listener w = Cancelled ->
  listener (step a w) = listener w.
Proof.
  intros Hl. destruct a as [| |m| | |command|q i]; simpl.
  - destruct Hl as [Hl|Hl]; by rewrite Hl.
  - destruct Hl as [Hl|Hl]; by rewrite Hl.
  - destruct Hl as [Hl|Hl]; by rewrite Hl.
  - destruct Hl as [Hl|Hl]; by rewrite Hl.
  - done.
  - unfold send_webcontrol_command. case_decide; [done|]. simpl.
    destruct (broadcast_frame (webcontrol_payload command) w) as [Hf _].
    unfold webcontrol_payload in Hf. by rewrite Hf.
  - by destruct (event_generator_frame q i w) as [-> _].
Qed.

Lemma run_listener_stopped tr w :
  listener w = Crashed \/ listener w = Cancelled ->
  listener (run tr w) = listener w.
Proof.
  revert w. induction tr as [|a tr IH]; intros w Hl; [done|].
  rewrite run_cons, IH; [by apply step_listener_stopped|].
  by rewrite step_listener_stopped.
Qed.

Lemma step_listener_crashed a w :
  listener (step a w) = Crashed -> a = UpstreamError \/ listener w = Crashed.
Proof.
  destruct a as [| |m| | |command|q i]; simpl.
  - destruct (listener w) eqn:E; simpl; rewrite ?E; intros H;
      try discriminate H; auto.
  - destruct (listener w) eqn:E; simpl; rewrite ?E; intros H;
      try discriminate H; auto.
  - destruct (listener w) eqn:E; simpl; rewrite ?E; auto.
    unfold on_message. case_decide; [|rewrite E; discriminate].
    rewrite put_all_listener, E. discriminate.
  - by left.
  - auto.
  - unfold send_webcontrol_command. case_decide; [auto|]. simpl.
    destruct (broadcast_frame (webcontrol_payload command) w) as [Hf _].
    unfold webcontrol_payload in Hf. rewrite Hf. auto.
  - destruct (event_generator_frame q i w) as [-> _]. auto.
Qed.

Lemma crashed_after_upstream_error ch tr :
  listener (run tr (init_world ch)) = Crashed -> UpstreamError ∈ tr.
Proof.
  induction tr as [|a tr IH] using rev_ind; [discriminate|].
  rewrite run_app. simpl. intros Hl. apply elem_of_app.
  apply step_listener_crashed in Hl as [->|Hl].
  - right. apply list_elem_of_here.
  - left. by apply IH.
Qed.

(** X13.  At shutdown [lifespan] cancels the listener and awaits it,
    catching only [CancelledError].  If the upstream never failed the exit
    is clean; if an upstream error has ended the listener before, that error
    is raised out of [lifespan] at shutdown.  In both cases the listener
    does not relay any more: after the exit no upstream entry changes the
    state, whatever else happens. *)
Theorem lifespan_exit_outcome ch tr :
  (UpstreamError ∉ tr -> snd (lifespan_exit (run tr (init_world ch))) = None)
  /\ (listener (run tr (init_world ch)) = Crashed ->
      lifespan_exit (run tr (init_world ch))
      = (run tr (init_world ch), Some OtherError))
  /\ (listener (run tr (init_world ch)) ≠ NotStarted ->
      forall tr' m,
        step (Upstream m)
          (run tr' (fst (lifespan_exit (run tr (init_world ch)))))
        = run tr' (fst (lifespan_exit (run tr (init_world ch))))).
Proof.
  set (w := run tr (init_world ch)). split_and!.
  - intros Hno. unfold lifespan_exit.
    destruct (listener w) eqn:E; try done.
    by apply crashed_after_upstream_error in E.
  - intros Hl. unfold lifespan_exit. by rewrite Hl.
  - intros Hstarted tr' m.
    assert (Hstop : listener (fst (lifespan_exit w)) = Crashed
                    \/ listener (fst (lifespan_exit w)) = Cancelled).
    { unfold lifespan_exit. destruct (listener w) eqn:E; simpl; auto.
      done. }
    simpl. rewrite (run_listener_stopped tr' _ Hstop).
    destruct Hstop as [Hs|Hs]; by rewrite Hs.
Qed.

Lemma lifespan_exit_outcome_crash :
  listener (run [Startup; GetEvents; UpstreamError] (init_world "updates"))
  = Crashed
  /\ lifespan_exit (run [Startup; GetEvents; UpstreamError]
                      (init_world "updates"))
     = (run [Startup; GetEvents; UpstreamError] (init_world "updates"),
        Some OtherError).
Proof.
  split; [reflexivity|].
  apply (lifespan_exit_outcome "updates" [Startup; GetEvents; UpstreamError]).
  reflexivity.
Defined.
